(** * zedio: socket facades, I/O awaiters and runtime configuration

    A shallow embedding of
      - zedio/async/config.hpp        (Config)
      - zedio/io/awaiter/fsetxattr.hpp (Fsetxattr)
      - zedio/net/io.hpp              (SocketIO, Accept, Connect)
      - zedio/net/socket.hpp          (Socket)
    and the properties of these that the specification states.

    Conventions.  A C++ [int] is a [Z] in [INT_MIN .. INT_MAX], a
    [std::size_t] a [Z] in [0 .. SIZE_MAX] with its wrap-around written
    out.  A system call is a question put to the kernel: every function
    that makes one takes the kernel's reply as an argument, so a theorem
    that quantifies over replies speaks about every kernel behaviour. *)

From Stdlib Require Import ZArith Lia List String.
From stdpp Require Import base list gmap.

Local Open Scope Z_scope.

(** ** Machine integers *)

Definition INT_MIN : Z := - 2 ^ 31.
Definition INT_MAX : Z := 2 ^ 31 - 1.
Definition SIZE_MAX : Z := 2 ^ 64 - 1.

Definition size_range (z : Z) : Prop := 0 <= z <= SIZE_MAX.

(** Two's-complement reduction of a mathematical integer to an [int]. *)
Definition int_wrap (z : Z) : Z := (z + 2 ^ 31) mod 2 ^ 32 - 2 ^ 31.

(** Unary minus on [int]. *)
Definition int_neg (z : Z) : Z := int_wrap (- z).

(** Reduction modulo 2^64: arithmetic on [std::size_t]. *)
Definition size_wrap (z : Z) : Z := z mod 2 ^ 64.

(** ** Constants of the Linux headers used by the sources *)

Definition EINTR : Z := 4.
Definition EMFILE : Z := 24.
Definition SOCK_STREAM : Z := 1.
Definition SOCK_NONBLOCK : Z := 2048.
Definition SOL_SOCKET : Z := 1.
Definition SO_REUSEADDR : Z := 2.
Definition SO_BROADCAST : Z := 6.
Definition SO_KEEPALIVE : Z := 9.
Definition SO_REUSEPORT : Z := 15.
Definition SOMAXCONN : Z := 4096.
Definition SO_LINGER : Z := 13.
Definition SO_PASSCRED : Z := 16.
Definition F_GETFL : Z := 3.
Definition F_SETFL : Z := 4.
Definition O_NONBLOCK : Z := 2048.
Definition O_NDELAY : Z := O_NONBLOCK.

(** ** Errors and results *)

(** Modelled from the spec: zedio/common/error.hpp is not among the
    sources.  The spec speaks of "an error whose kind is the negated
    value interpreted as a system error code"; an error is therefore a
    [std::error_code] of the system category, determined by its integer
    value, and [make_sys_error] builds it from that value. *)
Record error_code : Type := mk_error_code { value : Z }.

Definition make_sys_error (err : Z) : error_code := mk_error_code err.

(** [Result<T>] is [std::expected<T, std::error_code>]. *)
Inductive Result (T : Type) : Type :=
| Ok (v : T)
| Err (e : error_code).
Arguments Ok {T} v.
Arguments Err {T} e.

(** [if (ret)] on a [Result]. *)
Definition has_value {T : Type} (r : Result T) : bool :=
  match r with Ok _ => true | Err _ => false end.

(** What a system call leaves behind: its return value and [errno]. *)
Record sys_ret : Type := mk_sys_ret { ret : Z; errno : Z }.

(** The POSIX convention for calls that answer 0 or -1. *)
Definition posix_ret (k : sys_ret) : Prop := ret k = 0 \/ ret k = -1.

(** ** zedio/async/config.hpp *)

Module Config.

Record t : Type := mk {
  num_worker_ : Z;            (* std::size_t *)
  check_io_interval_ : Z;     (* uint32_t *)
  check_global_interval_ : Z; (* uint32_t *)
  ring_entries_ : Z;          (* std::size_t *)
  io_uring_flags_ : Z         (* uint32_t *)
}.

(** The default member initialisers.  [hardware_concurrency] is what
    [std::thread::hardware_concurrency()] answers on the machine. *)
Definition default (hardware_concurrency : Z) : t :=
  {| num_worker_ := hardware_concurrency;
     check_io_interval_ := 61;
     check_global_interval_ := 61;
     ring_entries_ := 1024;
     io_uring_flags_ := 0 |}.

Definition LOCAL_QUEUE_CAPACITY : Z := 256.
Definition FIXED_FILES_NUM : Z := 10.

End Config.

(** ** zedio/io/base: the part of an awaiter the sources rely on *)

(** Modelled from the spec: zedio/io/base/registrator.hpp is not among
    the sources.  The spec gives every operation descriptor "a result
    field (signed integer - the raw kernel return)"; the awaiters read
    it as [this->cb_.result_]. *)
Record Callback : Type := mk_Callback { result_ : Z }.

(** ** zedio/io/awaiter/fsetxattr.hpp *)

Module Fsetxattr.

Record t : Type := mk {
  cb_ : Callback;
  fd : Z;
  name : string;
  val : string;
  flags : Z;
  len : Z
}.

(** The constructor captures its arguments; [cb0] is the callback as
    the base class leaves it. *)
Definition new (cb0 : Callback) (fd : Z) (name val : string) (flags len : Z) : t :=
  mk cb0 fd name val flags len.

(** [return {}] in a function returning [Result<std::size_t>] is the
    value-initialised [std::size_t], that is 0. *)
Definition await_resume (self : t) : Result Z :=
  if 0 <=? result_ (cb_ self) then Ok 0
  else Err (make_sys_error (int_neg (result_ (cb_ self)))).

End Fsetxattr.

(** ** Socket addresses *)

(** The bytes of a [struct sockaddr] as the kernel reads or writes them. *)
Definition sockaddr : Type := list Byte.byte.

(** Modelled from the spec: zedio/common/concepts.hpp, which declares
    the concept [is_socket_address], is not among the sources.  The
    class lists what the code under src/ does with an [Addr]. *)
Class is_socket_address (Addr : Type) : Type := {
  Addr_sizeof : Z;                          (* sizeof(Addr) *)
  Addr_init : Addr;                         (* Addr{} *)
  Addr_family : Addr -> Z;                  (* addr.family() *)
  Addr_sockaddr : Addr -> sockaddr;         (* addr.sockaddr() *)
  Addr_from : sockaddr -> Z -> Addr;        (* Addr{sockaddr *, len} *)
  Addr_store : Addr -> sockaddr -> Addr     (* a write through addr.sockaddr() *)
}.

(** A [socklen_t] local: declared without an initialiser it holds an
    indeterminate value. *)
Inductive cell : Type :=
| Indeterminate
| Init (v : Z).

(** The kernel's side of [::getsockname] / [::getpeername]: its return
    value and errno, and what it stores through its two pointers when
    it succeeds. *)
Record name_reply : Type := mk_name_reply {
  name_ret : sys_ret;
  name_sockaddr : sockaddr;
  name_len : Z
}.

(** The kernel's side of [::getsockopt]: on success it stores [opt_val]
    through the [optval] pointer. *)
Record opt_reply : Type := mk_opt_reply {
  opt_ret : sys_ret;
  opt_val : Z
}.

(** One run of a [local_addr]: the length [::getsockname] was handed,
    the local [len] when the function returns, and the value returned. *)
Record local_addr_run (Addr : Type) : Type := mk_local_addr_run {
  asked_len : cell;
  final_len : cell;
  returned : Result Addr
}.
Arguments mk_local_addr_run {Addr} _ _ _.
Arguments asked_len {Addr} _.
Arguments final_len {Addr} _.
Arguments returned {Addr} _.

(** What the kernel does to [*addrlen]: untouched on failure, the
    actual length on success. *)
Definition len_after (len : cell) (k : name_reply) : cell :=
  if ret (name_ret k) =? -1 then len else Init (name_len k).

(** The kernel's side of [::getsockopt] for [SO_LINGER]: on success it
    stores a [struct linger]. *)
Record linger_reply : Type := mk_linger_reply {
  linger_ret : sys_ret;
  l_onoff : Z;
  l_linger : Z
}.

(** ** zedio/net/io.hpp *)

Module SocketIO.

(** [class SocketIO : public io::IO]; of the base class the sources
    use the descriptor [fd_]. *)
Record t : Type := mk { fd_ : Z }.

Definition fd (self : t) : Z := fd_ self.

(** [::socket(domain, type | SOCK_NONBLOCK, protocol)] answered by
    the kernel [socket]. *)
Definition build_socket (socket : Z -> Z -> Z -> sys_ret)
    (domain type protocol : Z) : Result t :=
  let k := socket domain (Z.lor type SOCK_NONBLOCK) protocol in
  if negb (ret k =? -1) then Ok (mk (ret k))
  else Err (make_sys_error (errno k)).

(** [get_sock_opt]: the outcome, and [optval] after the call. *)
Definition get_sock_opt (getsockopt : Z -> Z -> Z -> opt_reply)
    (self : t) (level optname : Z) (optval : Z) : Result unit * Z :=
  let k := getsockopt (fd_ self) level optname in
  if ret (opt_ret k) =? -1
  then (Err (make_sys_error (errno (opt_ret k))), optval)
  else (Ok tt, opt_val k).

Section Getters.
Variable getsockopt : Z -> Z -> Z -> opt_reply.

Definition reuseaddr (self : t) : Result bool :=
  let optval := 0 in
  match get_sock_opt getsockopt self SOL_SOCKET SO_REUSEADDR optval with
  | (Ok _, optval) => Ok (negb (optval =? 0))
  | (Err e, _) => Err e
  end.

Definition reuseport (self : t) : Result bool :=
  let optval := 0 in
  match get_sock_opt getsockopt self SOL_SOCKET SO_REUSEPORT optval with
  | (Ok _, optval) => Ok (negb (optval =? 0))
  | (Err e, _) => Err e
  end.

Definition broadcast (self : t) : Result bool :=
  let optval := 0 in
  match get_sock_opt getsockopt self SOL_SOCKET SO_BROADCAST optval with
  | (Ok _, optval) => Ok (negb (optval =? 0))
  | (Err e, _) => Err e
  end.

Definition keepalive (self : t) : Result bool :=
  let optval := 0 in
  match get_sock_opt getsockopt self SOL_SOCKET SO_KEEPALIVE optval with
  | (Ok _, optval) => Ok (negb (optval =? 0))
  | (Err e, _) => Err e
  end.
End Getters.

Section Address.
Context {Addr : Type} `{is_socket_address Addr}.

(** [Addr addr{}; socklen_t len{sizeof(addr)};] then [::getsockname]
    writes through [addr.sockaddr()]. *)
Definition local_addr (getsockname : Z -> cell -> name_reply)
    (self : t) : local_addr_run Addr :=
  let addr := Addr_init in
  let len := Init Addr_sizeof in
  let k := getsockname (fd_ self) len in
  if ret (name_ret k) =? -1
  then mk_local_addr_run len (len_after len k)
         (Err (make_sys_error (errno (name_ret k))))
  else mk_local_addr_run len (len_after len k)
         (Ok (Addr_store addr (name_sockaddr k))).
End Address.

(** The awaiter that [accept<Stream, Addr>()] returns. *)
Module Accept.

(** A pointer argument of [io_uring_prep_accept]: null, or the
    address of one of the descriptor's own members. *)
Inductive ptr : Type :=
| nullptr
| own_addr_      (* reinterpret_cast<struct sockaddr *>(&addr_) *)
| own_length_.   (* &length_ *)

Section Accept.
Context {Stream : Type} (Stream_from : SocketIO.t -> Stream).
Context {Addr : Type} `{is_socket_address Addr}.

Record t : Type := mk {
  cb_ : Callback;
  arg_fd : Z;
  arg_addr : ptr;
  arg_addrlen : ptr;
  arg_flags : Z;
  addr_ : Addr;
  length_ : Z
}.

(** [Accept(int fd)], with the default member initialisers
    [addr_{}] and [length_{sizeof(Addr)}]. *)
Definition new (cb0 : Callback) (fd : Z) : t :=
  {| cb_ := cb0;
     arg_fd := fd;
     arg_addr := own_addr_;
     arg_addrlen := own_length_;
     arg_flags := SOCK_NONBLOCK;
     addr_ := Addr_init;
     length_ := Addr_sizeof |}.

Definition await_resume (self : t) : Result (Stream * Addr) :=
  if 0 <=? result_ (cb_ self)
  then Ok (Stream_from (SocketIO.mk (result_ (cb_ self))), addr_ self)
  else Err (make_sys_error (int_neg (result_ (cb_ self)))).

(** A store of a peer address through a pointer argument. *)
Definition store_addr (p : ptr) (peer : sockaddr) (self : t) : t :=
  match p with
  | own_addr_ =>
      mk (cb_ self) (arg_fd self) (arg_addr self) (arg_addrlen self)
         (arg_flags self) (Addr_store (addr_ self) peer) (length_ self)
  | _ => self
  end.

(** A store of a length through a pointer argument. *)
Definition store_len (p : ptr) (n : Z) (self : t) : t :=
  match p with
  | own_length_ =>
      mk (cb_ self) (arg_fd self) (arg_addr self) (arg_addrlen self)
         (arg_flags self) (addr_ self) n
  | _ => self
  end.

(** Modelled from the spec: the Poller is not among the sources.
    On completion it "writes the raw result into the descriptor's
    result field"; before that the kernel, when the accept
    succeeded, has stored the peer address and its length through
    the two pointers the operation was prepared with. *)
Definition complete (res : Z) (peer : sockaddr) (peer_len : Z)
    (self : t) : t :=
  let self :=
    if 0 <=? res
    then store_len (arg_addrlen self) peer_len
           (store_addr (arg_addr self) peer self)
    else self in
  mk (mk_Callback res) (arg_fd self) (arg_addr self) (arg_addrlen self)
     (arg_flags self) (addr_ self) (length_ self).
End Accept.
Arguments t : clear implicits.
End Accept.

Definition accept {Addr : Type} `{is_socket_address Addr}
    (cb0 : Callback) (self : t) : Accept.t Addr :=
  Accept.new cb0 (fd_ self).

(** The awaiter that [build_stream<Stream, Addr>(addr)] returns. *)
Module Connect.
Section Connect.
Context {Stream : Type} (Stream_from : SocketIO.t -> Stream).
Context {Addr : Type} `{is_socket_address Addr}.

Record t : Type := mk {
  cb_ : Callback;
  arg_fd : Z;
  arg_addr : option sockaddr;   (* [None] is nullptr *)
  arg_addrlen : Z;
  io_ : SocketIO.t;
  addr_ : Addr
}.

(** [Connect(const Addr &addr)], with [io_{-1}]. *)
Definition new (cb0 : Callback) (addr : Addr) : t :=
  {| cb_ := cb0;
     arg_fd := -1;
     arg_addr := None;
     arg_addrlen := Addr_sizeof;
     io_ := SocketIO.mk (-1);
     addr_ := addr |}.

(** [Super_await_suspend] stands for [Super::await_suspend(handle)],
    which is not among the sources. *)
Definition await_suspend (socket : Z -> Z -> Z -> sys_ret)
    (Super_await_suspend : t -> t * bool) (self : t) : t * bool :=
  match build_socket socket (Addr_family (addr_ self)) SOCK_STREAM 0 with
  | Err e =>
      (mk (mk_Callback (value e)) (arg_fd self) (arg_addr self)
          (arg_addrlen self) (io_ self) (addr_ self),
       false)
  | Ok io =>
      Super_await_suspend
        (mk (cb_ self) (SocketIO.fd io)
            (Some (Addr_sockaddr (addr_ self)))
            (arg_addrlen self) io (addr_ self))
  end.

Definition await_resume (self : t) : Result Stream :=
  if 0 <=? result_ (cb_ self)
  then Ok (Stream_from (io_ self))
  else Err (make_sys_error (int_neg (result_ (cb_ self)))).

(** Modelled from the spec: on completion the Poller "writes the
    raw result into the descriptor's result field". *)
Definition complete (res : Z) (self : t) : t :=
  mk (mk_Callback res) (arg_fd self) (arg_addr self)
     (arg_addrlen self) (io_ self) (addr_ self).

(** [co_await] on the awaiter: [await_suspend]; when it answers
    [false] the coroutine resumes at once, otherwise it resumes
    after the completion [res]; then [await_resume]. *)
Definition co_await (socket : Z -> Z -> Z -> sys_ret)
    (Super_await_suspend : t -> t * bool) (res : Z) (self : t)
    : Result Stream :=
  let '(self, suspended) := await_suspend socket Super_await_suspend self in
  await_resume (if suspended : bool then complete res self else self).
End Connect.
Arguments t : clear implicits.
End Connect.

Definition build_stream {Addr : Type} `{is_socket_address Addr}
    (cb0 : Callback) (addr : Addr) : Connect.t Addr :=
  Connect.new cb0 addr.

(** *** Setters, and the calls made at construction

    A call that changes the kernel's state takes the state [k] and
    gives back the state after the call.  [optval] is the sequence of
    [int]s that the pointer of that name points to. *)

Section Setters.
Context {K : Type}.
Variable setsockopt : K -> Z -> Z -> Z -> list Z -> Z -> sys_ret * K.

Definition set_sock_opt (k : K) (self : t) (level optname : Z)
    (optval : list Z) (optlen : Z) : Result unit * K :=
  let '(r, k') := setsockopt k (fd_ self) level optname optval optlen in
  if ret r =? -1 then (Err (make_sys_error (errno r)), k')
  else (Ok tt, k').

Definition set_reuseaddr (k : K) (self : t) (on : bool) : Result unit * K :=
  let optval := if on then 1 else 0 in
  set_sock_opt k self SOL_SOCKET SO_REUSEADDR [optval] 4.

Definition set_reuseport (k : K) (self : t) (on : bool) : Result unit * K :=
  let optval := if on then 1 else 0 in
  set_sock_opt k self SOL_SOCKET SO_REUSEPORT [optval] 4.

Definition set_broadcast (k : K) (self : t) (on : bool) : Result unit * K :=
  let optval := if on then 1 else 0 in
  set_sock_opt k self SOL_SOCKET SO_BROADCAST [optval] 4.

Definition set_keepalive (k : K) (self : t) (on : bool) : Result unit * K :=
  let optval := if on then 1 else 0 in
  set_sock_opt k self SOL_SOCKET SO_KEEPALIVE [optval] 4.

Definition set_passcred (k : K) (self : t) (on : bool) : Result unit * K :=
  let optval := if on then 1 else 0 in
  set_sock_opt k self SOL_SOCKET SO_PASSCRED [optval] 4.

(** [duration] is a count of seconds; [lin.l_linger] is an [int], and
    the assignment narrows the count to it. *)
Definition set_linger (k : K) (self : t) (duration : option Z)
    : Result unit * K :=
  let lin := (0, 0) in
  let lin :=
    match duration with
    | Some d => (1, int_wrap d)
    | None => lin
    end in
  set_sock_opt k self SOL_SOCKET SO_LINGER [fst lin; snd lin] 8.
End Setters.

Definition passcred (getsockopt : Z -> Z -> Z -> opt_reply) (self : t)
    : Result bool :=
  let optval := 0 in
  match get_sock_opt getsockopt self SOL_SOCKET SO_PASSCRED optval with
  | (Ok _, optval) => Ok (negb (optval =? 0))
  | (Err e, _) => Err e
  end.

Definition linger (getsockopt_linger : Z -> Z -> Z -> linger_reply)
    (self : t) : Result (option Z) :=
  let k := getsockopt_linger (fd_ self) SOL_SOCKET SO_LINGER in
  if ret (linger_ret k) =? -1
  then Err (make_sys_error (errno (linger_ret k)))
  else if l_onoff k =? 0 then Ok None
  else Ok (Some (l_linger k)).

Definition listen (listen_sys : Z -> Z -> sys_ret) (self : t) (n : Z)
    : Result unit :=
  let k := listen_sys (fd_ self) n in
  if ret k =? -1 then Err (make_sys_error (errno k)) else Ok tt.

Section AddressCalls.
Context {Addr : Type} `{is_socket_address Addr}.

(** [bind_sys fd sa] answers [::bind(fd, addr.sockaddr(), addr.length())],
    [sa] being the bytes at [addr.sockaddr()]. *)
Definition bind (bind_sys : Z -> sockaddr -> sys_ret) (self : t) (addr : Addr)
    : Result unit :=
  let k := bind_sys (fd_ self) (Addr_sockaddr addr) in
  if ret k =? -1 then Err (make_sys_error (errno k)) else Ok tt.

Definition peer_addr (getpeername : Z -> cell -> name_reply)
    (self : t) : local_addr_run Addr :=
  let addr := Addr_init in
  let len := Init Addr_sizeof in
  let k := getpeername (fd_ self) len in
  if ret (name_ret k) =? -1
  then mk_local_addr_run len (len_after len k)
         (Err (make_sys_error (errno (name_ret k))))
  else mk_local_addr_run len (len_after len k)
         (Ok (Addr_store addr (name_sockaddr k))).

Definition build_listener {Listener : Type} (Listener_from : t -> Listener)
    (socket : Z -> Z -> Z -> sys_ret)
    (bind_sys : Z -> sockaddr -> sys_ret)
    (listen_sys : Z -> Z -> sys_ret)
    (addr : Addr) : Result Listener :=
  match build_socket socket (Addr_family addr) SOCK_STREAM 0 with
  | Err e => Err e
  | Ok io =>
      match bind bind_sys io addr with
      | Err e => Err e
      | Ok _ =>
          match listen listen_sys io SOMAXCONN with
          | Err e => Err e
          | Ok _ => Ok (Listener_from io)
          end
      end
  end.
End AddressCalls.

End SocketIO.

(** ** zedio/net/socket.hpp *)

Module Socket.

Record t : Type := mk { fd_ : Z }.

Definition fd (self : t) : Z := fd_ self.

Definition from_fd (fd : Z) : t := mk fd.

Definition build (socket : Z -> Z -> Z -> sys_ret)
    (domain type protocol : Z) : Result t :=
  let k := socket domain type protocol in
  if negb (ret k =? -1) then Ok (mk (ret k))
  else Err (make_sys_error (errno k)).

(** *** sync_close *)

(** What one run of [sync_close] did: how many times it called
    [::close], and whether it reached [LOG_ERROR]. *)
Record close_run : Type := mk_close_run { calls : nat; logged : bool }.

(** The do-while loop of [sync_close].  [close n] is the kernel's
    answer to the [n]-th call of [::close(fd)] (counted from 0), [n]
    the number of calls made so far, [cnt] the counter, which is a
    natural number at every test [cnt--]. *)
Fixpoint sync_close_loop (close : nat -> sys_ret) (n : nat) (cnt : nat)
    : close_run :=
  let r := ret (close n) in
  if r =? 0 then mk_close_run (S n) false
  else if r =? EINTR then
    match cnt with
    | S cnt' => sync_close_loop close (S n) cnt'
    | O => mk_close_run (S n) true
    end
  else mk_close_run (S n) true.

Definition sync_close (close : nat -> sys_ret) : close_run :=
  sync_close_loop close 0 3.

(** *** Synchronous calls that answer [Result<void>] *)

Inductive SHUTDOWN_OPTION : Type := READ | WRITE | READ_WRITE.

Definition SHUTDOWN_OPTION_int (how : SHUTDOWN_OPTION) : Z :=
  match how with READ => 0 | WRITE => 1 | READ_WRITE => 2 end.

(** [shutdown] has a [return] statement on the failure branch only.
    [None]: control reached the closing brace of the function and no
    value was returned. *)
Definition shutdown (shutdown_sys : Z -> Z -> sys_ret) (self : t)
    (how : SHUTDOWN_OPTION) : option (Result unit) :=
  let k := shutdown_sys (fd_ self) (SHUTDOWN_OPTION_int how) in
  if ret k =? -1 then Some (Err (make_sys_error (errno k)))
  else None.

Definition listen (listen_sys : Z -> Z -> sys_ret) (self : t) (n : Z)
    : option (Result unit) :=
  let k := listen_sys (fd_ self) n in
  if ret k =? -1 then Some (Err (make_sys_error (errno k)))
  else Some (Ok tt).

Definition bind {Addr : Type} `{is_socket_address Addr}
    (bind_sys : Z -> sockaddr -> sys_ret) (self : t) (addr : Addr)
    : option (Result unit) :=
  let k := bind_sys (fd_ self) (Addr_sockaddr addr) in
  if ret k =? -1 then Some (Err (make_sys_error (errno k)))
  else Some (Ok tt).

(** *** Addresses *)

(** [struct sockaddr_storage addr{}; socklen_t len;] then
    [::getsockname] writes into the storage. *)
Definition local_addr {Addr : Type} `{is_socket_address Addr}
    (getsockname : Z -> cell -> name_reply) (self : t)
    : local_addr_run Addr :=
  let len := Indeterminate in
  let k := getsockname (fd_ self) len in
  if ret (name_ret k) =? -1
  then mk_local_addr_run len (len_after len k)
         (Err (make_sys_error (errno (name_ret k))))
  else mk_local_addr_run len (len_after len k)
         (Ok (Addr_from (name_sockaddr k) (name_len k))).

(** *** Options *)

Definition get_sock_opt (getsockopt : Z -> Z -> Z -> opt_reply)
    (self : t) (level optname : Z) (optval : Z) : Result unit * Z :=
  let k := getsockopt (fd_ self) level optname in
  if ret (opt_ret k) =? -1
  then (Err (make_sys_error (errno (opt_ret k))), optval)
  else (Ok tt, opt_val k).

Section Getters.
Variable getsockopt : Z -> Z -> Z -> opt_reply.

Definition reuseaddr (self : t) : Result bool :=
  let optval := 0 in
  match get_sock_opt getsockopt self SOL_SOCKET SO_REUSEADDR optval with
  | (Ok _, optval) => Ok (optval =? 1)
  | (Err e, _) => Err e
  end.

Definition reuseport (self : t) : Result bool :=
  let optval := 0 in
  match get_sock_opt getsockopt self SOL_SOCKET SO_REUSEPORT optval with
  | (Ok _, optval) => Ok (optval =? 1)
  | (Err e, _) => Err e
  end.

Definition broadcast (self : t) : Result bool :=
  let optval := 0 in
  match get_sock_opt getsockopt self SOL_SOCKET SO_BROADCAST optval with
  | (Ok _, optval) => Ok (optval =? 1)
  | (Err e, _) => Err e
  end.

Definition keepalive (self : t) : Result bool :=
  let optval := 0 in
  match get_sock_opt getsockopt self SOL_SOCKET SO_KEEPALIVE optval with
  | (Ok _, optval) => Ok (optval =? 1)
  | (Err e, _) => Err e
  end.
End Getters.

(** *** write_all *)

Definition size_bytes (buf : list Byte.byte) : Z := Z.of_nat (length buf).

(** The loop of [write_all].  [write n off len] is what the [n]-th
    [co_await this->write(buf.data() + off, len)] yields.  The loop
    has no bound of its own; [fuel] bounds the number of iterations
    the model follows, and [None] says the loop was still running
    when the fuel ran out. *)
Fixpoint write_all_loop (fuel : nat) (write : nat -> Z -> Z -> Result Z)
    (n : nat) (has_written_bytes remaining_bytes : Z)
    : option (Result unit) :=
  if 0 <? remaining_bytes then
    match fuel with
    | O => None
    | S fuel' =>
        match write n has_written_bytes remaining_bytes with
        | Err e => Some (Err e)
        | Ok v =>
            write_all_loop fuel' write (S n)
              (size_wrap (has_written_bytes + v))
              (size_wrap (remaining_bytes - v))
        end
    end
  else Some (Ok tt).

Definition write_all (fuel : nat) (write : nat -> Z -> Z -> Result Z)
    (buf : list Byte.byte) : option (Result unit) :=
  write_all_loop fuel write 0 0 (size_bytes buf).

(** *** Ownership of the descriptor *)

(** The [Socket] objects alive in a program, by identity, and the
    descriptors handed so far to a close ([sync_close] or the
    asynchronous [async::close]), oldest first. *)
Record world : Type := mk_world {
  objs : gmap nat t;
  closed : list Z
}.

Inductive action : Type :=
| Close (o : nat)                 (* co_await o.close() *)
| MoveCtor (new other : nat)      (* Socket new{std::move(other)} *)
| MoveAssign (self other : nat)   (* self = std::move(other) *)
| Destroy (o : nat).              (* o.~Socket() *)

(** [if (fd_ >= 0) { sync_close(fd_); }] *)
Definition close_if_open (self : t) (closed : list Z) : list Z :=
  if 0 <=? fd_ self then closed ++ [fd_ self] else closed.

(** Each member function below answers [None] when the program is
    ill-formed: it uses an object that is not alive, or constructs
    one where an object is alive. *)

(** [~Socket()] *)
Definition dtor (o : nat) (w : world) : option world :=
  match objs w !! o with
  | Some self =>
      Some (mk_world (delete o (objs w)) (close_if_open self (closed w)))
  | None => None
  end.

(** [Socket(Socket &&other)] *)
Definition move_ctor (new other : nat) (w : world) : option world :=
  match objs w !! new, objs w !! other with
  | None, Some src =>
      Some (mk_world
              (<[other := mk (-1)]> (<[new := mk (fd_ src)]> (objs w)))
              (closed w))
  | _, _ => None
  end.

(** [operator=(Socket &&other)]; [self] and [other] may be one object. *)
Definition move_assign (self other : nat) (w : world) : option world :=
  match objs w !! self, objs w !! other with
  | Some dst, Some src =>
      Some (mk_world
              (<[other := mk (-1)]> (<[self := mk (fd_ src)]> (objs w)))
              (close_if_open dst (closed w)))
  | _, _ => None
  end.

(** [close()], awaited: [fd_] is set to -1 and the old value is
    handed to [async::close]. *)
Definition close (o : nat) (w : world) : option world :=
  match objs w !! o with
  | Some self =>
      let fd := fd_ self in
      Some (mk_world (<[o := mk (-1)]> (objs w)) (closed w ++ [fd]))
  | None => None
  end.

Definition step (w : world) (a : action) : option world :=
  match a with
  | Close o => close o w
  | MoveCtor new other => move_ctor new other w
  | MoveAssign self other => move_assign self other w
  | Destroy o => dtor o w
  end.

Fixpoint run (w : world) (prog : list action) : option world :=
  match prog with
  | [] => Some w
  | a :: prog' =>
      match step w a with
      | Some w' => run w' prog'
      | None => None
      end
  end.

(** *** Setters *)

Section Setters.
Context {K : Type}.
Variable setsockopt : K -> Z -> Z -> Z -> list Z -> Z -> sys_ret * K.

Definition set_sock_opt (k : K) (self : t) (level optname : Z)
    (optval : list Z) (optlen : Z) : Result unit * K :=
  let '(r, k') := setsockopt k (fd_ self) level optname optval optlen in
  if ret r =? -1 then (Err (make_sys_error (errno r)), k')
  else (Ok tt, k').

Definition set_reuseaddr (k : K) (self : t) (on : bool) : Result unit * K :=
  let optval := if on then 1 else 0 in
  set_sock_opt k self SOL_SOCKET SO_REUSEADDR [optval] 4.

Definition set_reuseport (k : K) (self : t) (on : bool) : Result unit * K :=
  let optval := if on then 1 else 0 in
  set_sock_opt k self SOL_SOCKET SO_REUSEPORT [optval] 4.

Definition set_broadcast (k : K) (self : t) (on : bool) : Result unit * K :=
  let optval := if on then 1 else 0 in
  set_sock_opt k self SOL_SOCKET SO_BROADCAST [optval] 4.

Definition set_keepalive (k : K) (self : t) (on : bool) : Result unit * K :=
  let optval := if on then 1 else 0 in
  set_sock_opt k self SOL_SOCKET SO_KEEPALIVE [optval] 4.

Definition set_linger (k : K) (self : t) (duration : option Z)
    : Result unit * K :=
  let lin := (0, 0) in
  let lin :=
    match duration with
    | Some d => (1, int_wrap d)
    | None => lin
    end in
  set_sock_opt k self SOL_SOCKET SO_LINGER [fst lin; snd lin] 8.
End Setters.

Definition linger (getsockopt_linger : Z -> Z -> Z -> linger_reply)
    (self : t) : Result (option Z) :=
  let k := getsockopt_linger (fd_ self) SOL_SOCKET SO_LINGER in
  if ret (linger_ret k) =? -1
  then Err (make_sys_error (errno (linger_ret k)))
  else if l_onoff k =? 0 then Ok None
  else Ok (Some (l_linger k)).

(** *** File status flags *)

Section Fcntl.
Context {K : Type}.
(** [::fcntl(fd, F_GETFL, 0)] and [::fcntl(fd, F_SETFL, flags)]. *)
Variable fcntl_getfl : K -> Z -> sys_ret.
Variable fcntl_setfl : K -> Z -> Z -> sys_ret * K.

Definition set_nodelay (k : K) (self : t) (on : bool) : Result unit * K :=
  let flags := ret (fcntl_getfl k (fd_ self)) in
  let flags :=
    if on then Z.lor flags O_NDELAY
    else Z.land flags (Z.lnot O_NDELAY) in
  let '(r, k') := fcntl_setfl k (fd_ self) flags in
  if ret r =? -1 then (Err (make_sys_error (errno r)), k')
  else (Ok tt, k').

(** [return flags & O_NDELAY;] converts the [int] to [bool]. *)
Definition nodelay (k : K) (self : t) : Result bool :=
  let r := fcntl_getfl k (fd_ self) in
  let flags := ret r in
  if flags =? -1 then Err (make_sys_error (errno r))
  else Ok (negb (Z.land flags O_NDELAY =? 0)).

Definition set_nonblocking (k : K) (self : t) (status : bool)
    : Result unit * K :=
  let flags := ret (fcntl_getfl k (fd_ self)) in
  let flags :=
    if status then Z.lor flags O_NONBLOCK
    else Z.land flags (Z.lnot O_NONBLOCK) in
  let '(r, k') := fcntl_setfl k (fd_ self) flags in
  if ret r =? -1 then (Err (make_sys_error (errno r)), k')
  else (Ok tt, k').

Definition nonblocking (k : K) (self : t) : Result bool :=
  let r := fcntl_getfl k (fd_ self) in
  let flags := ret r in
  if flags =? -1 then Err (make_sys_error (errno r))
  else Ok (negb (Z.land flags O_NONBLOCK =? 0)).
End Fcntl.

(** *** The peer's address *)

Definition peer_addr {Addr : Type} `{is_socket_address Addr}
    (getpeername : Z -> cell -> name_reply) (self : t)
    : local_addr_run Addr :=
  let len := Indeterminate in
  let k := getpeername (fd_ self) len in
  if ret (name_ret k) =? -1
  then mk_local_addr_run len (len_after len k)
         (Err (make_sys_error (errno (name_ret k))))
  else mk_local_addr_run len (len_after len k)
         (Ok (Addr_from (name_sockaddr k) (name_len k))).

End Socket.

(** ** Template arguments for the examples *)

(** An address type that is nothing but its bytes, of the size of a
    [struct sockaddr_storage]. *)
#[local] Instance raw_address : is_socket_address sockaddr := {|
  Addr_sizeof := 128;
  Addr_init := [];
  Addr_family := fun _ => 2;
  Addr_sockaddr := fun a => a;
  Addr_from := fun sa len => take (Z.to_nat len) sa;
  Addr_store := fun _ sa => sa
|}.

(** A stream type that is nothing but its [SocketIO]. *)
Record io_stream : Type := mk_io_stream { stream_io : SocketIO.t }.

(** ** Comparing the two facades *)

(** The kernel reports the value [v] for an option of a descriptor:
    [::getsockopt] does not fail and stores [v]. *)
Definition reports (getsockopt : Z -> Z -> Z -> opt_reply)
    (fd level optname v : Z) : Prop :=
  ret (opt_ret (getsockopt fd level optname)) <> -1 /\
  opt_val (getsockopt fd level optname) = v.

(** The boolean options that both facades read, each with the getter
    of [Socket] and the getter of [SocketIO]. *)
Definition boolean_getters :
    list (Z * ((Z -> Z -> Z -> opt_reply) -> Socket.t -> Result bool)
            * ((Z -> Z -> Z -> opt_reply) -> SocketIO.t -> Result bool)) :=
  [ (SO_REUSEADDR, Socket.reuseaddr, SocketIO.reuseaddr);
    (SO_REUSEPORT, Socket.reuseport, SocketIO.reuseport);
    (SO_BROADCAST, Socket.broadcast, SocketIO.broadcast);
    (SO_KEEPALIVE, Socket.keepalive, SocketIO.keepalive) ].

(** ** Runs of write_all *)

(** [write_all] returns [r]: some number of iterations is enough. *)
Definition write_all_returns (write : nat -> Z -> Z -> Result Z)
    (buf : list Byte.byte) (r : Result unit) : Prop :=
  exists fuel, Socket.write_all fuel write buf = Some r.


(** Every successful write that was asked for at least one byte
    reports at least one byte and at most the bytes asked for. *)
Definition makes_progress (write : nat -> Z -> Z -> Result Z) : Prop :=
  forall n off len v, 0 < len -> write n off len = Ok v -> 0 < v <= len.

(** The bytes that the first [n] writes of a run over [size] bytes
    report, each write asked for what the earlier ones left; a failed
    write reports nothing. *)
Fixpoint cumulative (write : nat -> Z -> Z -> Result Z) (size : Z) (n : nat) : Z :=
  match n with
  | O => 0
  | S n' =>
      let c := cumulative write size n' in
      match write n' c (size - c) with
      | Ok v => c + v
      | Err _ => c
      end
  end.

(** The [n]-th write of such a run. *)
Definition nth_write (write : nat -> Z -> Z -> Result Z) (size : Z) (n : nat)
    : Result Z :=
  write n (cumulative write size n) (size - cumulative write size n).

(** ** Ownership of descriptors *)

(** No valid descriptor is held by two live [Socket] objects. *)
Definition sole_owner (objs : gmap nat Socket.t) : Prop :=
  forall i j s1 s2,
    objs !! i = Some s1 -> objs !! j = Some s2 ->
    Socket.fd_ s1 = Socket.fd_ s2 -> 0 <= Socket.fd_ s1 -> i = j.

(** No valid descriptor was handed to a close twice. *)
Definition closed_once (closed : list Z) : Prop :=
  NoDup (filter (fun f => 0 <= f) closed).

(** A valid descriptor that a live object holds was not closed yet. *)
Definition owned_open (w : Socket.world) : Prop :=
  forall i s, Socket.objs w !! i = Some s -> 0 <= Socket.fd_ s ->
              Socket.fd_ s ∉ Socket.closed w.

Definition world_inv (w : Socket.world) : Prop :=
  sole_owner (Socket.objs w) /\ owned_open w /\ closed_once (Socket.closed w).

(** ** Kernels that keep what they are given *)

(** An [int] option that [::setsockopt] accepted is the value that
    [::getsockopt] reports afterwards. *)
Definition keeps_options {K : Type}
    (setsockopt : K -> Z -> Z -> Z -> list Z -> Z -> sys_ret * K)
    (getsockopt : K -> Z -> Z -> Z -> opt_reply) : Prop :=
  forall k fd level optname v optlen,
    ret (fst (setsockopt k fd level optname [v] optlen)) <> -1 ->
    reports (getsockopt (snd (setsockopt k fd level optname [v] optlen)))
      fd level optname v.

(** The same for the [struct linger] of [SO_LINGER]. *)
Definition keeps_linger {K : Type}
    (setsockopt : K -> Z -> Z -> Z -> list Z -> Z -> sys_ret * K)
    (getsockopt_linger : K -> Z -> Z -> Z -> linger_reply) : Prop :=
  forall k fd onoff lin optlen,
    ret (fst (setsockopt k fd SOL_SOCKET SO_LINGER [onoff; lin] optlen)) <> -1 ->
    let g :=
      getsockopt_linger
        (snd (setsockopt k fd SOL_SOCKET SO_LINGER [onoff; lin] optlen))
        fd SOL_SOCKET SO_LINGER in
    ret (linger_ret g) <> -1 /\ l_onoff g = onoff /\ l_linger g = lin.

(** File status flags (nonnegative) that [F_SETFL] accepted are what
    [F_GETFL] answers afterwards. *)
Definition keeps_flags {K : Type}
    (fcntl_getfl : K -> Z -> sys_ret)
    (fcntl_setfl : K -> Z -> Z -> sys_ret * K) : Prop :=
  forall k fd flags,
    0 <= flags ->
    ret (fst (fcntl_setfl k fd flags)) <> -1 ->
    ret (fcntl_getfl (snd (fcntl_setfl k fd flags)) fd) = flags.

(** A duration whose count of seconds is an [int]. *)
Definition fits_int (duration : option Z) : Prop :=
  match duration with
  | Some d => INT_MIN <= d <= INT_MAX
  | None => True
  end.

(** The boolean options of [Socket], each setter with its getter. *)
Definition Socket_boolean_options {K : Type} :
    list (((K -> Z -> Z -> Z -> list Z -> Z -> sys_ret * K) ->
           K -> Socket.t -> bool -> Result unit * K)
          * ((Z -> Z -> Z -> opt_reply) -> Socket.t -> Result bool)) :=
  [ (Socket.set_reuseaddr, Socket.reuseaddr);
    (Socket.set_reuseport, Socket.reuseport);
    (Socket.set_broadcast, Socket.broadcast);
    (Socket.set_keepalive, Socket.keepalive) ].

(** The boolean options of [SocketIO], each setter with its getter. *)
Definition SocketIO_boolean_options {K : Type} :
    list (((K -> Z -> Z -> Z -> list Z -> Z -> sys_ret * K) ->
           K -> SocketIO.t -> bool -> Result unit * K)
          * ((Z -> Z -> Z -> opt_reply) -> SocketIO.t -> Result bool)) :=
  [ (SocketIO.set_reuseaddr, SocketIO.reuseaddr);
    (SocketIO.set_reuseport, SocketIO.reuseport);
    (SocketIO.set_broadcast, SocketIO.broadcast);
    (SocketIO.set_keepalive, SocketIO.keepalive);
    (SocketIO.set_passcred, SocketIO.passcred) ].

(** *** A kernel for the examples: a table of options and of flags *)

Record table_kernel : Type := mk_table_kernel {
  tk_options : gmap (Z * Z * Z) (list Z);
  tk_flags : gmap Z Z
}.

Definition table_setsockopt (k : table_kernel) (fd level optname : Z)
    (optval : list Z) (optlen : Z) : sys_ret * table_kernel :=
  (mk_sys_ret 0 0,
   mk_table_kernel (<[(fd, level, optname) := optval]> (tk_options k)) (tk_flags k)).

Definition table_getsockopt (k : table_kernel) (fd level optname : Z)
    : opt_reply :=
  match tk_options k !! (fd, level, optname) with
  | Some [v] => mk_opt_reply (mk_sys_ret 0 0) v
  | _ => mk_opt_reply (mk_sys_ret (-1) 92) 0
  end.

Definition table_getsockopt_linger (k : table_kernel) (fd level optname : Z)
    : linger_reply :=
  match tk_options k !! (fd, level, optname) with
  | Some [onoff; lin] => mk_linger_reply (mk_sys_ret 0 0) onoff lin
  | _ => mk_linger_reply (mk_sys_ret (-1) 92) 0 0
  end.

Definition table_getfl (k : table_kernel) (fd : Z) : sys_ret :=
  match tk_flags k !! fd with
  | Some flags => mk_sys_ret flags 0
  | None => mk_sys_ret (-1) 9
  end.

Definition table_setfl (k : table_kernel) (fd flags : Z)
    : sys_ret * table_kernel :=
  (mk_sys_ret 0 0, mk_table_kernel (tk_options k) (<[fd := flags]> (tk_flags k))).

(** The two setters and the two getters of [Socket] that work on the
    file status flags. *)
Definition Socket_flag_setters {K : Type} :
    list ((K -> Z -> sys_ret) -> (K -> Z -> Z -> sys_ret * K) ->
          K -> Socket.t -> bool -> Result unit * K) :=
  [ Socket.set_nodelay; Socket.set_nonblocking ].

Definition Socket_flag_getters {K : Type} :
    list ((K -> Z -> sys_ret) -> K -> Socket.t -> Result bool) :=
  [ Socket.nodelay; Socket.nonblocking ].

(** *** Kernels for the examples of write_all *)

(** A kernel that takes at most three bytes at a time. *)
Definition write_by_three (_ : nat) (_ len : Z) : Result Z := Ok (Z.min len 3).

(** The same, but it refuses (EFAULT) every request that does not end
    at byte 7 of the buffer. *)
Definition write_by_three_to_7 (_ : nat) (off len : Z) : Result Z :=
  if off + len =? 7 then Ok (Z.min len 3) else Err (make_sys_error 14).

(** *** Requests that a run of write_all makes *)

(** A run over [size] bytes makes its [n]-th write: bytes are left and
    no earlier write failed. *)
Definition made (write : nat -> Z -> Z -> Result Z) (size : Z) (n : nat) : Prop :=
  0 < size - cumulative write size n /\
  forall i, (i < n)%nat -> has_value (nth_write write size i) = true.

(** Every write that the run makes and that succeeds reports at least
    one byte and at most the bytes it was asked to write. *)
Definition makes_progress_on (write : nat -> Z -> Z -> Result Z) (size : Z)
    : Prop :=
  forall n v,
    made write size n -> nth_write write size n = Ok v ->
    0 < v <= size - cumulative write size n.


(** *** A kernel for the examples of local_addr

    It cannot read a length that was never initialised (EFAULT), and
    otherwise stores an IPv4 address of 16 bytes. *)
Definition strict_getsockname (_ : Z) (len : cell) : name_reply :=
  match len with
  | Indeterminate => mk_name_reply (mk_sys_ret (-1) 14) [] 0
  | Init _ => mk_name_reply (mk_sys_ret 0 0) [Byte.x02; Byte.x00] 16
  end.

(** ** Descriptors over a run *)

(** Some live object holds the descriptor [f]. *)
Definition held (objs : gmap nat Socket.t) (f : Z) : Prop :=
  exists o s, objs !! o = Some s /\ Socket.fd_ s = f.

(** * Properties *)

Lemma int_neg_exact (r : Z) : INT_MIN < r <= INT_MAX -> int_neg r = - r.
Proof.
  unfold int_neg, int_wrap, INT_MIN, INT_MAX. intros Hr.
  rewrite Z.mod_small by lia. lia.
Qed.

(** C6. The default-constructed Config has num_worker_ = hardware
    concurrency, check_io_interval_ = 61, check_global_interval_ = 61,
    ring_entries_ = 1024, io_uring_flags_ = 0, and the compile-time
    constants are LOCAL_QUEUE_CAPACITY = 256 and FIXED_FILES_NUM = 10. *)
Theorem Config_defaults (hardware_concurrency : Z) :
  let c := Config.default hardware_concurrency in
  Config.num_worker_ c = hardware_concurrency /\
  Config.check_io_interval_ c = 61 /\
  Config.check_global_interval_ c = 61 /\
  Config.ring_entries_ c = 1024 /\
  Config.io_uring_flags_ c = 0 /\
  Config.LOCAL_QUEUE_CAPACITY = 256 /\
  Config.FIXED_FILES_NUM = 10.
Proof. repeat split. Qed.

(** ** Awaiters *)

Section Awaiters.
Context {Stream : Type} (Stream_from : SocketIO.t -> Stream).
Context {Addr : Type} `{is_socket_address Addr}.

(** C1. [await_resume] inspects the stored raw kernel result [r]: when
    [r >= 0] it yields a success (for Fsetxattr the value-initialised
    payload, which carries nothing of [r]; for Accept the pair of a new
    Stream over the descriptor [r] and the stored address; for Connect
    the Stream over its socket), and when [r < 0] it yields the failure
    [make_sys_error (-r)], the kernel's error code as it is.  [r] is an
    [int] whose negation is an [int]. *)
Theorem await_resume_interprets_result
    (f : Fsetxattr.t) (a : SocketIO.Accept.t Addr) (c : SocketIO.Connect.t Addr)
    (r : Z) :
  result_ (Fsetxattr.cb_ f) = r ->
  result_ (SocketIO.Accept.cb_ a) = r ->
  result_ (SocketIO.Connect.cb_ c) = r ->
  INT_MIN < r <= INT_MAX ->
  (0 <= r ->
     Fsetxattr.await_resume f = Ok 0 /\
     SocketIO.Accept.await_resume Stream_from a
       = Ok (Stream_from (SocketIO.mk r), SocketIO.Accept.addr_ a) /\
     SocketIO.Connect.await_resume Stream_from c
       = Ok (Stream_from (SocketIO.Connect.io_ c))) /\
  (r < 0 ->
     Fsetxattr.await_resume f = Err (make_sys_error (- r)) /\
     SocketIO.Accept.await_resume Stream_from a = Err (make_sys_error (- r)) /\
     SocketIO.Connect.await_resume Stream_from c = Err (make_sys_error (- r))).
Proof.
  intros Hf Ha Hc Hr.
  unfold Fsetxattr.await_resume, SocketIO.Accept.await_resume,
    SocketIO.Connect.await_resume.
  rewrite Hf, Ha, Hc. split; intros Hsign.
  - apply Z.leb_le in Hsign. rewrite Hsign. auto.
  - assert (Hneg : (0 <=? r) = false) by (apply Z.leb_gt; lia).
    rewrite Hneg, int_neg_exact by lia. auto.
Qed.

(** The descriptor that [accept] builds hands its own members to the
    kernel preparation. *)
Lemma accept_descriptor (cb0 : Callback) (io : SocketIO.t) :
  let a := SocketIO.accept cb0 io in
  SocketIO.Accept.arg_fd a = SocketIO.fd_ io /\
  SocketIO.Accept.arg_addr a = SocketIO.Accept.own_addr_ /\
  SocketIO.Accept.arg_addrlen a = SocketIO.Accept.own_length_ /\
  SocketIO.Accept.arg_flags a = SOCK_NONBLOCK /\
  SocketIO.Accept.addr_ a = Addr_init /\
  SocketIO.Accept.length_ a = Addr_sizeof.
Proof. repeat split. Qed.

(** C7. The Accept descriptor produced by [SocketIO::accept] owns the
    storage for the peer address (an [Addr] member and a length member
    initialised to [sizeof(Addr)]), passes that storage to the kernel
    preparation, and on a nonnegative result returns the pair of a
    Stream wrapping the returned descriptor and the stored peer
    address. *)
Theorem accept_owns_peer_storage
    (cb0 : Callback) (io : SocketIO.t) (r : Z) (peer : sockaddr) (peer_len : Z) :
  0 <= r ->
  let a := SocketIO.accept cb0 io in
  let a' := SocketIO.Accept.complete r peer peer_len a in
  SocketIO.Accept.length_ a = Addr_sizeof /\
  SocketIO.Accept.arg_fd a = SocketIO.fd_ io /\
  SocketIO.Accept.arg_addr a = SocketIO.Accept.own_addr_ /\
  SocketIO.Accept.arg_addrlen a = SocketIO.Accept.own_length_ /\
  SocketIO.Accept.addr_ a' = Addr_store Addr_init peer /\
  SocketIO.Accept.length_ a' = peer_len /\
  SocketIO.Accept.await_resume Stream_from a'
    = Ok (Stream_from (SocketIO.mk r), SocketIO.Accept.addr_ a').
Proof.
  intros Hr a a'. apply Z.leb_le in Hr.
  subst a a'. unfold SocketIO.accept, SocketIO.Accept.new,
    SocketIO.Accept.complete, SocketIO.Accept.await_resume.
  cbn. rewrite Hr. cbn. repeat split.
Qed.

(** [await_suspend] on the path where [::socket] fails: the awaiter is
    left with [errno] itself in its result field and is not suspended. *)
Lemma Connect_await_suspend_socket_fails
    (cb0 : Callback) (addr : Addr)
    (Super_await_suspend : SocketIO.Connect.t Addr -> SocketIO.Connect.t Addr * bool)
    (e : Z) :
  let '(c, suspended) :=
    SocketIO.Connect.await_suspend (fun _ _ _ => mk_sys_ret (-1) e)
      Super_await_suspend (SocketIO.build_stream cb0 addr) in
  suspended = false /\
  result_ (SocketIO.Connect.cb_ c) = e /\
  SocketIO.Connect.io_ c = SocketIO.mk (-1).
Proof. cbn. repeat split. Qed.

(** C3, on the code.  When [::socket] fails with [errno = e] inside
    [await_suspend], the coroutine resumes at once; [await_resume] then
    reads the result field, which holds [e] and not [-e]: for every
    [e >= 0] it yields a success Stream over the socket [-1], and the
    error is lost. *)
Theorem Connect_socket_failure_outcome
    (cb0 : Callback) (addr : Addr)
    (Super_await_suspend : SocketIO.Connect.t Addr -> SocketIO.Connect.t Addr * bool)
    (res e : Z) :
  SocketIO.Connect.co_await Stream_from (fun _ _ _ => mk_sys_ret (-1) e)
    Super_await_suspend res (SocketIO.build_stream cb0 addr)
  = if 0 <=? e then Ok (Stream_from (SocketIO.mk (-1)))
    else Err (make_sys_error (int_neg e)).
Proof. reflexivity. Qed.

End Awaiters.

(** C1 at the results 3 and -11 (EAGAIN). *)
Lemma await_resume_interprets_result_witness :
  (Fsetxattr.await_resume (Fsetxattr.new (mk_Callback 3) 5 "user.k" "v" 0 1) = Ok 0 /\
   SocketIO.Accept.await_resume mk_io_stream
     (SocketIO.Accept.complete 3 [] 16 (SocketIO.accept (mk_Callback 0) (SocketIO.mk 5)))
   = Ok (mk_io_stream (SocketIO.mk 3), [])) /\
  (Fsetxattr.await_resume (Fsetxattr.new (mk_Callback (-11)) 5 "user.k" "v" 0 1)
   = Err (make_sys_error 11) /\
   SocketIO.Accept.await_resume mk_io_stream
     (SocketIO.Accept.complete (-11) [] 16 (SocketIO.accept (mk_Callback 0) (SocketIO.mk 5)))
   = Err (make_sys_error 11)).
Proof.
  split.
  - pose proof (await_resume_interprets_result mk_io_stream
      (Fsetxattr.new (mk_Callback 3) 5 "user.k" "v" 0 1)
      (SocketIO.Accept.complete 3 [] 16 (SocketIO.accept (mk_Callback 0) (SocketIO.mk 5)))
      (SocketIO.Connect.complete 3 (SocketIO.build_stream (mk_Callback 0) []))
      3 eq_refl eq_refl eq_refl) as [Hpos _].
    + unfold INT_MIN, INT_MAX; lia.
    + destruct Hpos as (Hf & Ha & _); [lia |]. split; [exact Hf | exact Ha].
  - pose proof (await_resume_interprets_result mk_io_stream
      (Fsetxattr.new (mk_Callback (-11)) 5 "user.k" "v" 0 1)
      (SocketIO.Accept.complete (-11) [] 16 (SocketIO.accept (mk_Callback 0) (SocketIO.mk 5)))
      (SocketIO.Connect.complete (-11) (SocketIO.build_stream (mk_Callback 0) []))
      (-11) eq_refl eq_refl eq_refl) as [_ Hneg].
    + unfold INT_MIN, INT_MAX; lia.
    + destruct Hneg as (Hf & Ha & _); [lia |]. split; [exact Hf | exact Ha].
Defined.

(** C7 for an accept on descriptor 5 that completes with descriptor 9. *)
Lemma accept_owns_peer_storage_witness :
  0 <= 9 /\
  SocketIO.Accept.await_resume mk_io_stream
    (SocketIO.Accept.complete 9 [Byte.x02; Byte.x00] 16
       (SocketIO.accept (mk_Callback 0) (SocketIO.mk 5)))
  = Ok (mk_io_stream (SocketIO.mk 9), [Byte.x02; Byte.x00]).
Proof.
  split; [lia |].
  destruct (accept_owns_peer_storage mk_io_stream (mk_Callback 0) (SocketIO.mk 5)
              9 [Byte.x02; Byte.x00] 16) as (_ & _ & _ & _ & _ & _ & Hres).
  - lia.
  - exact Hres.
Defined.

(** C3 at [errno = EMFILE]: the caller receives a Stream over the
    descriptor -1. *)
Example Connect_EMFILE :
  SocketIO.Connect.co_await mk_io_stream (fun _ _ _ => mk_sys_ret (-1) EMFILE)
    (fun c => (c, true)) 0 (SocketIO.build_stream (mk_Callback 0) [])
  = Ok (mk_io_stream (SocketIO.mk (-1))).
Proof. reflexivity. Qed.

(** ** Socket: sync_close *)

(** A run started after [n] calls with counter [cnt] makes at least one
    more call and at most [cnt + 1] more. *)
Lemma sync_close_loop_calls (close : nat -> sys_ret) (cnt n : nat) :
  (n < Socket.calls (Socket.sync_close_loop close n cnt) <= n + cnt + 1)%nat.
Proof.
  revert n. induction cnt as [| cnt IH]; intros n; cbn;
    destruct (ret (close n) =? 0); cbn; try lia;
    destruct (ret (close n) =? EINTR); cbn; try lia.
  specialize (IH (S n)). lia.
Qed.

(** The loop is bounded: one call and at most three retries. *)
Lemma sync_close_at_most_three_retries (close : nat -> sys_ret) :
  (1 <= Socket.calls (Socket.sync_close close) <= 4)%nat.
Proof.
  unfold Socket.sync_close.
  pose proof (sync_close_loop_calls close 3 0). lia.
Qed.

(** The loop tests the return value of [::close] against [EINTR]: were
    the kernel to answer 4 every time, the call would be repeated three
    times. *)
Example sync_close_return_value_4 :
  Socket.sync_close (fun _ => mk_sys_ret EINTR 0) = Socket.mk_close_run 4 true.
Proof. reflexivity. Qed.

(** [::close] answers 0 or -1, and neither is [EINTR]: the call is
    never repeated. *)
Lemma sync_close_posix_single_call (close : nat -> sys_ret) :
  posix_ret (close 0%nat) ->
  Socket.calls (Socket.sync_close close) = 1%nat.
Proof.
  unfold Socket.sync_close, posix_ret. cbn. intros [H0 | H1].
  - rewrite H0. reflexivity.
  - rewrite H1. reflexivity.
Qed.

(** C2, on the code.  When [::close] fails, whatever [errno] says
    ([EINTR] included), [sync_close] makes that one call, does not
    retry, and goes on to log the error. *)
Theorem sync_close_failure_is_not_retried (e : nat -> Z) :
  Socket.sync_close (fun n => mk_sys_ret (-1) (e n)) = Socket.mk_close_run 1 true.
Proof. reflexivity. Qed.

(** C2 at an interrupted close. *)
Example sync_close_EINTR :
  Socket.sync_close (fun _ => mk_sys_ret (-1) EINTR) = Socket.mk_close_run 1 true.
Proof. reflexivity. Qed.

(** ** Socket: shutdown *)

(** [shutdown] returns a value exactly when [::shutdown] fails. *)
Lemma shutdown_returns_iff_failure
    (shutdown_sys : Z -> Z -> sys_ret) (self : Socket.t) (how : Socket.SHUTDOWN_OPTION) :
  is_Some (Socket.shutdown shutdown_sys self how) <->
  ret (shutdown_sys (Socket.fd_ self) (Socket.SHUTDOWN_OPTION_int how)) = -1.
Proof.
  unfold Socket.shutdown.
  destruct (Z.eqb_spec (ret (shutdown_sys (Socket.fd_ self)
                               (Socket.SHUTDOWN_OPTION_int how))) (-1)) as [E | E].
  - split; [intros _; exact E | intros _; eexists; reflexivity].
  - split; [intros [x Hx]; discriminate | intros E'; contradiction].
Qed.

(** C4, on the code.  When [::shutdown] succeeds, [Socket::shutdown]
    reaches the end of its body without returning a value, where
    [listen], written the same way, returns unit. *)
Theorem shutdown_success_returns_nothing (self : Socket.t) (how : Socket.SHUTDOWN_OPTION) :
  Socket.shutdown (fun _ _ => mk_sys_ret 0 0) self how = None /\
  Socket.listen (fun _ _ => mk_sys_ret 0 0) self SOMAXCONN = Some (Ok tt).
Proof. split; reflexivity. Qed.

(** On failure [shutdown] returns the error built from [errno]. *)
Lemma shutdown_failure (self : Socket.t) (how : Socket.SHUTDOWN_OPTION) (e : Z) :
  Socket.shutdown (fun _ _ => mk_sys_ret (-1) e) self how
  = Some (Err (make_sys_error e)).
Proof. reflexivity. Qed.

(** ** local_addr *)

Section LocalAddr.
Context {Addr : Type} `{is_socket_address Addr}.

(** C5. [Socket::local_addr] hands [::getsockname] a length that was
    never initialised: the call it makes is the one on an indeterminate
    length, whose answer decides what is returned, and when that call
    fails the length is still indeterminate on return.
    [SocketIO::local_addr] initialises the length to [sizeof(addr)]
    before the call: the call it makes is the one on that length, whose
    answer decides what is returned, and the length is initialised on
    return whether the call fails or not. *)
Theorem local_addr_length_initialisation
    (getsockname : Z -> cell -> name_reply) (s : Socket.t) (io : SocketIO.t) :
  let run := Socket.local_addr (Addr := Addr) getsockname s in
  let run_io := SocketIO.local_addr (Addr := Addr) getsockname io in
  let k := getsockname (Socket.fd_ s) Indeterminate in
  let k_io := getsockname (SocketIO.fd_ io) (Init Addr_sizeof) in
  asked_len run = Indeterminate /\
  final_len run
    = (if ret (name_ret (getsockname (Socket.fd_ s) Indeterminate)) =? -1
       then Indeterminate
       else Init (name_len (getsockname (Socket.fd_ s) Indeterminate))) /\
  asked_len run_io = Init Addr_sizeof /\
  returned run
    = (if ret (name_ret k) =? -1 then Err (make_sys_error (errno (name_ret k)))
       else Ok (Addr_from (name_sockaddr k) (name_len k))) /\
  final_len run_io
    = (if ret (name_ret k_io) =? -1 then Init Addr_sizeof
       else Init (name_len k_io)) /\
  returned run_io
    = (if ret (name_ret k_io) =? -1
       then Err (make_sys_error (errno (name_ret k_io)))
       else Ok (Addr_store Addr_init (name_sockaddr k_io))).
Proof.
  cbn. unfold Socket.local_addr, SocketIO.local_addr, len_after.
  destruct (ret (name_ret (getsockname (Socket.fd_ s) Indeterminate)) =? -1);
    destruct (ret (name_ret (getsockname (SocketIO.fd_ io) (Init Addr_sizeof))) =? -1);
    cbn; repeat split.
Qed.

(** What [SocketIO::local_addr] returns rests on the kernel's answer to
    the length [sizeof(addr)] only. *)
Lemma SocketIO_local_addr_depends_on_sizeof
    (g1 g2 : Z -> cell -> name_reply) (io : SocketIO.t) :
  g1 (SocketIO.fd_ io) (Init Addr_sizeof) = g2 (SocketIO.fd_ io) (Init Addr_sizeof) ->
  SocketIO.local_addr (Addr := Addr) g1 io = SocketIO.local_addr g2 io.
Proof. unfold SocketIO.local_addr. intros ->. reflexivity. Qed.

(** What [Socket::local_addr] returns rests on the kernel's answer to
    an indeterminate length only. *)
Lemma Socket_local_addr_depends_on_indeterminate
    (g1 g2 : Z -> cell -> name_reply) (s : Socket.t) :
  g1 (Socket.fd_ s) Indeterminate = g2 (Socket.fd_ s) Indeterminate ->
  Socket.local_addr (Addr := Addr) g1 s = Socket.local_addr g2 s.
Proof. unfold Socket.local_addr. intros ->. reflexivity. Qed.

End LocalAddr.

(** On a kernel that cannot read a length that was never initialised,
    [Socket::local_addr] fails where [SocketIO::local_addr] succeeds:
    the two hand the kernel different lengths. *)
Example local_addr_on_strict_kernel :
  returned (Socket.local_addr (Addr := sockaddr) strict_getsockname (Socket.mk 3))
  = Err (make_sys_error 14) /\
  returned (SocketIO.local_addr (Addr := sockaddr) strict_getsockname (SocketIO.mk 3))
  = Ok [Byte.x02; Byte.x00].
Proof. split; reflexivity. Qed.

(** ** Boolean option getters *)

Section Getters.
Variable getsockopt : Z -> Z -> Z -> opt_reply.
Variable fd : Z.

Lemma Socket_get_sock_opt_reports (level optname v optval : Z) :
  reports getsockopt fd level optname v ->
  Socket.get_sock_opt getsockopt (Socket.mk fd) level optname optval = (Ok tt, v).
Proof.
  intros [Hret Hval]. unfold Socket.get_sock_opt. cbn.
  destruct (Z.eqb_spec (ret (opt_ret (getsockopt fd level optname))) (-1));
    [contradiction | now rewrite Hval].
Qed.

Lemma SocketIO_get_sock_opt_reports (level optname v optval : Z) :
  reports getsockopt fd level optname v ->
  SocketIO.get_sock_opt getsockopt (SocketIO.mk fd) level optname optval = (Ok tt, v).
Proof.
  intros [Hret Hval]. unfold SocketIO.get_sock_opt. cbn.
  destruct (Z.eqb_spec (ret (opt_ret (getsockopt fd level optname))) (-1));
    [contradiction | now rewrite Hval].
Qed.

(** Each getter on a reported value: [Socket] tests [== 1], [SocketIO]
    tests [!= 0]. *)
Lemma boolean_getters_on_report
    (optname : Z) (gs : (Z -> Z -> Z -> opt_reply) -> Socket.t -> Result bool)
    (gio : (Z -> Z -> Z -> opt_reply) -> SocketIO.t -> Result bool) (v : Z) :
  In (optname, gs, gio) boolean_getters ->
  reports getsockopt fd SOL_SOCKET optname v ->
  gs getsockopt (Socket.mk fd) = Ok (v =? 1) /\
  gio getsockopt (SocketIO.mk fd) = Ok (negb (v =? 0)).
Proof.
  intros Hin Hrep.
  repeat (destruct Hin as [Heq | Hin]; [inversion Heq; subst; clear Heq |]);
    try contradiction;
    unfold Socket.reuseaddr, Socket.reuseport, Socket.broadcast, Socket.keepalive,
      SocketIO.reuseaddr, SocketIO.reuseport, SocketIO.broadcast, SocketIO.keepalive;
    rewrite (Socket_get_sock_opt_reports _ _ v 0 Hrep),
      (SocketIO_get_sock_opt_reports _ _ v 0 Hrep); split; reflexivity.
Qed.

(** When the kernel call fails, both facades return the same error. *)
Lemma boolean_getters_agree_on_failure
    (optname : Z) (gs : (Z -> Z -> Z -> opt_reply) -> Socket.t -> Result bool)
    (gio : (Z -> Z -> Z -> opt_reply) -> SocketIO.t -> Result bool) :
  In (optname, gs, gio) boolean_getters ->
  ret (opt_ret (getsockopt fd SOL_SOCKET optname)) = -1 ->
  gs getsockopt (Socket.mk fd) = gio getsockopt (SocketIO.mk fd).
Proof.
  intros Hin Hret.
  repeat (destruct Hin as [Heq | Hin]; [inversion Heq; subst; clear Heq |]);
    try contradiction;
    unfold Socket.reuseaddr, Socket.reuseport, Socket.broadcast, Socket.keepalive,
      SocketIO.reuseaddr, SocketIO.reuseport, SocketIO.broadcast, SocketIO.keepalive,
      Socket.get_sock_opt, SocketIO.get_sock_opt; cbn; rewrite Hret; reflexivity.
Qed.

(** C9, amended.  For a reported option value of 0 or 1 the getter of
    [Socket] (which tests [== 1]) and the getter of [SocketIO] (which
    tests [!= 0]) return the same boolean; for every other reported
    value the getter of [Socket] returns false and the getter of
    [SocketIO] returns true. *)
Theorem boolean_getters_compared
    (optname : Z) (gs : (Z -> Z -> Z -> opt_reply) -> Socket.t -> Result bool)
    (gio : (Z -> Z -> Z -> opt_reply) -> SocketIO.t -> Result bool) (v : Z) :
  In (optname, gs, gio) boolean_getters ->
  reports getsockopt fd SOL_SOCKET optname v ->
  (v = 0 \/ v = 1 ->
     gs getsockopt (Socket.mk fd) = gio getsockopt (SocketIO.mk fd)) /\
  (v <> 0 -> v <> 1 ->
     gs getsockopt (Socket.mk fd) = Ok false /\
     gio getsockopt (SocketIO.mk fd) = Ok true).
Proof.
  intros Hin Hrep.
  destruct (boolean_getters_on_report optname gs gio v Hin Hrep) as [Hs Hio].
  rewrite Hs, Hio. split.
  - intros [-> | ->]; reflexivity.
  - intros H0 H1. apply Z.eqb_neq in H0, H1. rewrite H0, H1. split; reflexivity.
Qed.

End Getters.

(** C9 as stated fails: when the kernel reports 2 for SO_REUSEADDR,
    [Socket::reuseaddr] returns false and [SocketIO::reuseaddr] true. *)
Lemma boolean_getters_differ_at_2 :
  let getsockopt := fun _ _ _ : Z => mk_opt_reply (mk_sys_ret 0 0) 2 in
  reports getsockopt 3 SOL_SOCKET SO_REUSEADDR 2 /\
  Socket.reuseaddr getsockopt (Socket.mk 3) = Ok false /\
  SocketIO.reuseaddr getsockopt (SocketIO.mk 3) = Ok true.
Proof.
  cbn. repeat split. unfold reports. cbn. lia.
Qed.

(** C9, amended, for SO_KEEPALIVE reported as 1 on descriptor 3. *)
Lemma boolean_getters_compared_witness :
  let getsockopt := fun _ _ _ : Z => mk_opt_reply (mk_sys_ret 0 0) 1 in
  Socket.keepalive getsockopt (Socket.mk 3)
  = SocketIO.keepalive getsockopt (SocketIO.mk 3).
Proof.
  cbn zeta.
  refine (proj1 (boolean_getters_compared
                   (fun _ _ _ : Z => mk_opt_reply (mk_sys_ret 0 0) 1) 3
                   SO_KEEPALIVE Socket.keepalive SocketIO.keepalive 1 _ _) _).
  - unfold boolean_getters. cbn. tauto.
  - unfold reports. cbn. split; [lia | reflexivity].
  - right. reflexivity.
Defined.

(** ** Socket: write_all *)

Lemma size_wrap_small (z : Z) : size_range z -> size_wrap z = z.
Proof. unfold size_range, SIZE_MAX, size_wrap. intros Hz. apply Z.mod_small. lia. Qed.

(** More fuel does not change what a run returns. *)
Lemma write_all_loop_fuel_mono (write : nat -> Z -> Z -> Result Z)
    (fuel fuel' : nat) (n : nat) (hw rem : Z) (r : Result unit) :
  (fuel <= fuel')%nat ->
  Socket.write_all_loop fuel write n hw rem = Some r ->
  Socket.write_all_loop fuel' write n hw rem = Some r.
Proof.
  revert fuel' n hw rem.
  induction fuel as [| fuel IH]; intros fuel' n hw rem Hle; cbn.
  - destruct (0 <? rem) eqn:Hrem; [discriminate |].
    intros Hr. destruct fuel'; cbn; rewrite Hrem; exact Hr.
  - destruct fuel' as [| fuel']; [lia |]. cbn.
    destruct (0 <? rem); [| auto].
    destruct (write n hw rem); [| auto].
    apply IH. lia.
Qed.

(** [write_all] returns at most one result. *)
Lemma write_all_returns_unique (write : nat -> Z -> Z -> Result Z)
    (buf : list Byte.byte) (r1 r2 : Result unit) :
  write_all_returns write buf r1 -> write_all_returns write buf r2 -> r1 = r2.
Proof.
  intros [f1 H1] [f2 H2]. unfold Socket.write_all in *.
  apply (write_all_loop_fuel_mono write f1 (Nat.max f1 f2)) in H1; [| lia].
  apply (write_all_loop_fuel_mono write f2 (Nat.max f1 f2)) in H2; [| lia].
  congruence.
Qed.

Section WriteAll.
Variable write : nat -> Z -> Z -> Result Z.
Variable size : Z.
Hypothesis Hprogress : makes_progress_on write size.
Hypothesis Hsize : size_range size.


End WriteAll.

(** A kernel whose every successful write makes progress does so on the
    writes that a run makes. *)
Lemma makes_progress_on_any_size (write : nat -> Z -> Z -> Result Z) (size : Z) :
  makes_progress write -> makes_progress_on write size.
Proof.
  intros Hp n v [Hrem _] Hv. exact (Hp n _ _ v Hrem Hv).
Qed.







(** ** Socket: the descriptor is closed at most once *)

Lemma closed_once_snoc (l : list Z) (f : Z) :
  closed_once l -> (0 <= f -> f ∉ l) -> closed_once (l ++ [f]).
Proof.
  unfold closed_once. intros Hl Hf. rewrite filter_app.
  apply NoDup_app. split; [exact Hl |]. split.
  - intros x Hx Hx'. apply list_elem_of_filter in Hx as [_ Hx].
    apply list_elem_of_filter in Hx' as [Hpos Hx'].
    apply list_elem_of_singleton in Hx'. subst x. exact (Hf Hpos Hx).
  - destruct (decide (0 <= f)) as [Hpos | Hneg].
    + rewrite filter_cons_True by exact Hpos. apply NoDup_singleton.
    + rewrite filter_cons_False by exact Hneg. apply NoDup_nil. exact I.
Qed.

Lemma close_if_open_once (s : Socket.t) (l : list Z) :
  closed_once l -> (0 <= Socket.fd_ s -> Socket.fd_ s ∉ l) ->
  closed_once (Socket.close_if_open s l).
Proof.
  intros Hl Hs. unfold Socket.close_if_open.
  destruct (0 <=? Socket.fd_ s); [apply closed_once_snoc |]; assumption.
Qed.

Lemma elem_of_close_if_open (g : Z) (s : Socket.t) (l : list Z) :
  g ∈ Socket.close_if_open s l -> g ∈ l \/ g = Socket.fd_ s.
Proof.
  unfold Socket.close_if_open. destruct (0 <=? Socket.fd_ s); [| auto].
  intros Hg. apply elem_of_app in Hg as [Hg | Hg]; [auto |].
  apply list_elem_of_singleton in Hg. auto.
Qed.

(** What a lookup finds after [other.fd_ = -1] following [fd_ = src]:
    a holder of a valid descriptor is either [self], now holding what
    [other] held, or an object that was not touched. *)
Lemma lookup_moved (objs : gmap nat Socket.t) (self other i : nat)
    (src s : Socket.t) :
  <[other := Socket.mk (-1)]> (<[self := Socket.mk (Socket.fd_ src)]> objs) !! i
    = Some s ->
  0 <= Socket.fd_ s ->
  i <> other /\
  ((i = self /\ Socket.fd_ s = Socket.fd_ src) \/ (i <> self /\ objs !! i = Some s)).
Proof.
  intros Hi Hpos.
  apply lookup_insert_Some in Hi as [[-> <-] | [Hne Hi]]; [cbn in Hpos; lia |].
  split; [congruence |].
  apply lookup_insert_Some in Hi as [[-> <-] | [Hne' Hi]]; [left | right]; auto.
Qed.

Lemma close_preserves_inv (o : nat) (w w' : Socket.world) :
  world_inv w -> Socket.close o w = Some w' -> world_inv w'.
Proof.
  intros (Hsole & Hopen & Honce). unfold Socket.close.
  destruct (Socket.objs w !! o) as [self |] eqn:Ho; [| discriminate].
  intros [= <-]. unfold world_inv, owned_open; cbn. split; [| split].
  - intros i j s1 s2 Hi Hj Heq Hpos.
    apply lookup_insert_Some in Hi as [[-> <-] | [Hne Hi]]; [cbn in Hpos; lia |].
    apply lookup_insert_Some in Hj as [[-> <-] | [Hne' Hj]]; [cbn in Heq; lia |].
    exact (Hsole i j s1 s2 Hi Hj Heq Hpos).
  - intros i s Hi Hpos Hin.
    apply lookup_insert_Some in Hi as [[-> <-] | [Hne Hi]]; [cbn in Hpos; lia |].
    apply elem_of_app in Hin as [Hin | Hin]; [exact (Hopen i s Hi Hpos Hin) |].
    apply list_elem_of_singleton in Hin.
    apply Hne. symmetry. exact (Hsole i o s self Hi Ho Hin Hpos).
  - apply closed_once_snoc; [exact Honce |]. intros Hpos. exact (Hopen o self Ho Hpos).
Qed.

Lemma move_ctor_preserves_inv (new other : nat) (w w' : Socket.world) :
  world_inv w -> Socket.move_ctor new other w = Some w' -> world_inv w'.
Proof.
  intros (Hsole & Hopen & Honce). unfold Socket.move_ctor.
  destruct (Socket.objs w !! new) as [? |] eqn:Hnew; [discriminate |].
  destruct (Socket.objs w !! other) as [src |] eqn:Hother; [| discriminate].
  intros [= <-]. unfold world_inv, owned_open; cbn. split; [| split].
  - intros i j s1 s2 Hi Hj Heq Hpos.
    assert (Hpos2 : 0 <= Socket.fd_ s2) by lia.
    apply lookup_moved in Hi as [Hio [[-> Hi] | [Hin Hi]]]; [| | exact Hpos];
      apply lookup_moved in Hj as [Hjo [[-> Hj] | [Hjn Hj]]]; try exact Hpos2;
      try reflexivity.
    + exfalso. apply Hjo. apply (Hsole j other s2 src Hj Hother); lia.
    + exfalso. apply Hio. apply (Hsole i other s1 src Hi Hother); lia.
    + exact (Hsole i j s1 s2 Hi Hj Heq Hpos).
  - intros i s Hi Hpos.
    apply lookup_moved in Hi as [Hio [[-> Hi] | [Hin Hi]]]; [| | exact Hpos].
    + rewrite Hi. apply (Hopen other src Hother). lia.
    + exact (Hopen i s Hi Hpos).
  - exact Honce.
Qed.

Lemma move_assign_preserves_inv (self other : nat) (w w' : Socket.world) :
  world_inv w -> Socket.move_assign self other w = Some w' -> world_inv w'.
Proof.
  intros (Hsole & Hopen & Honce). unfold Socket.move_assign.
  destruct (Socket.objs w !! self) as [dst |] eqn:Hself; [| discriminate].
  destruct (Socket.objs w !! other) as [src |] eqn:Hother; [| discriminate].
  intros [= <-]. unfold world_inv, owned_open; cbn. split; [| split].
  - intros i j s1 s2 Hi Hj Heq Hpos.
    assert (Hpos2 : 0 <= Socket.fd_ s2) by lia.
    apply lookup_moved in Hi as [Hio [[-> Hi] | [Hin Hi]]]; [| | exact Hpos];
      apply lookup_moved in Hj as [Hjo [[-> Hj] | [Hjn Hj]]]; try exact Hpos2;
      try reflexivity.
    + exfalso. apply Hjo. apply (Hsole j other s2 src Hj Hother); lia.
    + exfalso. apply Hio. apply (Hsole i other s1 src Hi Hother); lia.
    + exact (Hsole i j s1 s2 Hi Hj Heq Hpos).
  - intros i s Hi Hpos Hin.
    apply lookup_moved in Hi as [Hio [[-> Hi] | [Hin' Hi]]]; [| | exact Hpos].
    + apply elem_of_close_if_open in Hin as [Hin | Hin].
      * rewrite Hi in Hin, Hpos. exact (Hopen other src Hother Hpos Hin).
      * apply Hio. apply (Hsole self other dst src Hself Hother); lia.
    + apply elem_of_close_if_open in Hin as [Hin | Hin].
      * exact (Hopen i s Hi Hpos Hin).
      * apply Hin'. exact (Hsole i self s dst Hi Hself Hin Hpos).
  - apply close_if_open_once; [exact Honce |]. intros Hpos. exact (Hopen self dst Hself Hpos).
Qed.

Lemma dtor_preserves_inv (o : nat) (w w' : Socket.world) :
  world_inv w -> Socket.dtor o w = Some w' -> world_inv w'.
Proof.
  intros (Hsole & Hopen & Honce). unfold Socket.dtor.
  destruct (Socket.objs w !! o) as [self |] eqn:Ho; [| discriminate].
  intros [= <-]. unfold world_inv, owned_open; cbn. split; [| split].
  - intros i j s1 s2 Hi Hj.
    apply lookup_delete_Some in Hi as [_ Hi].
    apply lookup_delete_Some in Hj as [_ Hj].
    exact (Hsole i j s1 s2 Hi Hj).
  - intros i s Hi Hpos Hin.
    apply lookup_delete_Some in Hi as [Hne Hi].
    apply elem_of_close_if_open in Hin as [Hin | Hin].
    + exact (Hopen i s Hi Hpos Hin).
    + apply Hne. symmetry. exact (Hsole i o s self Hi Ho Hin Hpos).
  - apply close_if_open_once; [exact Honce |]. intros Hpos. exact (Hopen o self Ho Hpos).
Qed.

Lemma step_preserves_inv (w w' : Socket.world) (a : Socket.action) :
  world_inv w -> Socket.step w a = Some w' -> world_inv w'.
Proof.
  destruct a; cbn;
    eauto using close_preserves_inv, move_ctor_preserves_inv,
      move_assign_preserves_inv, dtor_preserves_inv.
Qed.

Lemma run_preserves_inv (prog : list Socket.action) (w w' : Socket.world) :
  world_inv w -> Socket.run w prog = Some w' -> world_inv w'.
Proof.
  revert w. induction prog as [| a prog IH]; intros w Hinv; cbn.
  - intros [= <-]. exact Hinv.
  - destruct (Socket.step w a) as [w1 |] eqn:Hstep; [| discriminate].
    apply IH. exact (step_preserves_inv w w1 a Hinv Hstep).
Qed.

(** C8.  Start from live [Socket] objects no two of which hold the same
    valid descriptor, nothing closed yet.  Whatever sequence of close,
    move construction, move assignment and destruction the program
    runs, no valid descriptor is handed to a close twice, and no two
    live objects come to hold the same valid descriptor. *)
Theorem socket_closes_fd_at_most_once
    (objs : gmap nat Socket.t) (prog : list Socket.action) (w' : Socket.world) :
  sole_owner objs ->
  Socket.run (Socket.mk_world objs []) prog = Some w' ->
  closed_once (Socket.closed w') /\ sole_owner (Socket.objs w').
Proof.
  intros Hsole Hrun.
  assert (Hinv : world_inv (Socket.mk_world objs [])).
  { split; [exact Hsole |]. split.
    - intros i s _ _ Hin. cbn in Hin. apply not_elem_of_nil in Hin. exact Hin.
    - unfold closed_once. cbn. apply NoDup_nil. exact I. }
  destruct (run_preserves_inv prog _ w' Hinv Hrun) as (Hs & _ & Hc).
  split; assumption.
Qed.

(** Two objects over different descriptors. *)
Lemma sole_owner_pair (a b : nat) (fa fb : Z) :
  fa <> fb ->
  sole_owner (<[a := Socket.mk fa]> (<[b := Socket.mk fb]> ∅)).
Proof.
  intros Hne i j s1 s2 Hi Hj Heq _.
  apply lookup_insert_Some in Hi as [[<- <-] | [Hia Hi]];
    apply lookup_insert_Some in Hj as [[<- <-] | [Hja Hj]]; try reflexivity;
    try (apply lookup_insert_Some in Hi as [[<- <-] | [Hib Hi]]);
    try (apply lookup_insert_Some in Hj as [[<- <-] | [Hjb Hj]]);
    try reflexivity; try (cbn in Heq; congruence);
    try (rewrite lookup_empty in Hi; discriminate);
    try (rewrite lookup_empty in Hj; discriminate).
Qed.

(** C8 for two sockets over the descriptors 5 and 7: the first is moved
    into a new object, which is move-assigned over the second (closing
    7); the result is closed (closing 5); all three objects are then
    destroyed, and nothing more is closed. *)
Lemma socket_closes_fd_at_most_once_witness :
  let objs := <[0%nat := Socket.mk 5]> (<[1%nat := Socket.mk 7]> ∅) in
  let prog := [Socket.MoveCtor 2 0; Socket.MoveAssign 1 2; Socket.Close 1;
               Socket.Destroy 0; Socket.Destroy 1; Socket.Destroy 2] in
  exists w',
    Socket.run (Socket.mk_world objs []) prog = Some w' /\
    Socket.closed w' = [7; 5] /\
    closed_once (Socket.closed w').
Proof.
  cbn zeta.
  destruct (Socket.run
              (Socket.mk_world (<[0%nat := Socket.mk 5]> (<[1%nat := Socket.mk 7]> ∅)) [])
              [Socket.MoveCtor 2 0; Socket.MoveAssign 1 2; Socket.Close 1;
               Socket.Destroy 0; Socket.Destroy 1; Socket.Destroy 2])
    as [w' |] eqn:Hrun.
  - exists w'. split; [reflexivity |]. split.
    + vm_compute in Hrun. injection Hrun as <-. reflexivity.
    + apply (socket_closes_fd_at_most_once _ _ w' (sole_owner_pair 0 1 5 7 ltac:(lia)) Hrun).
  - vm_compute in Hrun. discriminate Hrun.
Defined.

(** * Further properties of the code *)

(** ** sync_close, whatever the kernel answers *)

Lemma sync_close_loop_shape (close : nat -> sys_ret) (cnt n : nat) :
  let run := Socket.sync_close_loop close n cnt in
  let last := ret (close (Nat.pred (Socket.calls run))) in
  (forall i, (n <= i)%nat -> (S i < Socket.calls run)%nat -> ret (close i) = EINTR) /\
  Socket.logged run = negb (last =? 0) /\
  (last = EINTR -> Socket.calls run = (n + cnt + 1)%nat).
Proof.
  revert n. induction cnt as [| cnt IH]; intros n; cbn.
  - destruct (Z.eqb_spec (ret (close n)) 0) as [E0 | E0]; cbn.
    + rewrite E0. repeat split; [intros; lia | unfold EINTR; lia].
    + destruct (Z.eqb_spec (ret (close n)) EINTR) as [E4 | E4]; cbn.
      * repeat split; [intros; lia | | intros _; lia].
        destruct (Z.eqb_spec (ret (close n)) 0); [contradiction | reflexivity].
      * repeat split; [intros; lia | | intros; contradiction].
        destruct (Z.eqb_spec (ret (close n)) 0); [contradiction | reflexivity].
  - destruct (Z.eqb_spec (ret (close n)) 0) as [E0 | E0]; cbn.
    + rewrite E0. repeat split; [intros; lia | unfold EINTR; lia].
    + destruct (Z.eqb_spec (ret (close n)) EINTR) as [E4 | E4]; cbn.
      * destruct (IH (S n)) as (Hall & Hlog & Hlast).
        pose proof (sync_close_loop_calls close cnt (S n)) as Hcalls.
        repeat split.
        -- intros i Hi Hlt. destruct (Nat.eq_dec i n) as [-> | Hne];
             [exact E4 | apply Hall; lia].
        -- exact Hlog.
        -- intros Hl. rewrite (Hlast Hl). lia.
      * repeat split; [intros; lia | | intros; contradiction].
        destruct (Z.eqb_spec (ret (close n)) 0); [contradiction | reflexivity].
Qed.

(** [sync_close] calls [::close] at least once and at most four times;
    every call but the last returned the value of [EINTR]; the error is
    logged exactly when the last call did not return 0; and a last call
    that returned the value of [EINTR] is the fourth. *)
Theorem sync_close_run_shape (close : nat -> sys_ret) :
  let run := Socket.sync_close close in
  let last := ret (close (Nat.pred (Socket.calls run))) in
  (1 <= Socket.calls run <= 4)%nat /\
  (forall i, (S i < Socket.calls run)%nat -> ret (close i) = EINTR) /\
  Socket.logged run = negb (last =? 0) /\
  (last = EINTR -> Socket.calls run = 4%nat).
Proof.
  cbn zeta. unfold Socket.sync_close.
  pose proof (sync_close_loop_calls close 3 0) as Hcalls.
  destruct (sync_close_loop_shape close 3 0) as (Hall & Hlog & Hlast).
  split; [lia |]. split; [intros i Hi; apply Hall; [lia | exact Hi] |].
  split; [exact Hlog | exact Hlast].
Qed.

(** ** Options: what a setter stores, its getter reads back *)

Section OptionRoundTrips.
Context {K : Type}.
Variable setsockopt : K -> Z -> Z -> Z -> list Z -> Z -> sys_ret * K.
Variable getsockopt : K -> Z -> Z -> Z -> opt_reply.
Variable getsockopt_linger : K -> Z -> Z -> Z -> linger_reply.

Lemma Socket_set_sock_opt_ok (k k' : K) (self : Socket.t)
    (level optname : Z) (optval : list Z) (optlen : Z) :
  Socket.set_sock_opt setsockopt k self level optname optval optlen = (Ok tt, k') ->
  ret (fst (setsockopt k (Socket.fd_ self) level optname optval optlen)) <> -1 /\
  k' = snd (setsockopt k (Socket.fd_ self) level optname optval optlen).
Proof.
  unfold Socket.set_sock_opt.
  destruct (setsockopt k (Socket.fd_ self) level optname optval optlen) as [r k1].
  cbn. destruct (Z.eqb_spec (ret r) (-1)); [discriminate |].
  intros [= <-]. auto.
Qed.

Lemma SocketIO_set_sock_opt_ok (k k' : K) (self : SocketIO.t)
    (level optname : Z) (optval : list Z) (optlen : Z) :
  SocketIO.set_sock_opt setsockopt k self level optname optval optlen = (Ok tt, k') ->
  ret (fst (setsockopt k (SocketIO.fd_ self) level optname optval optlen)) <> -1 /\
  k' = snd (setsockopt k (SocketIO.fd_ self) level optname optval optlen).
Proof.
  unfold SocketIO.set_sock_opt.
  destruct (setsockopt k (SocketIO.fd_ self) level optname optval optlen) as [r k1].
  cbn. destruct (Z.eqb_spec (ret r) (-1)); [discriminate |].
  intros [= <-]. auto.
Qed.

(** On a kernel that keeps its options, each boolean option of [Socket]
    that was set to [on] with success reads back as [on]: setter and
    getter name the same option and agree on its encoding. *)
Theorem Socket_boolean_option_round_trip
    (set : (K -> Z -> Z -> Z -> list Z -> Z -> sys_ret * K) ->
           K -> Socket.t -> bool -> Result unit * K)
    (get : (Z -> Z -> Z -> opt_reply) -> Socket.t -> Result bool)
    (k k' : K) (self : Socket.t) (on : bool) :
  keeps_options setsockopt getsockopt ->
  In (set, get) Socket_boolean_options ->
  set setsockopt k self on = (Ok tt, k') ->
  get (getsockopt k') self = Ok on.
Proof.
  intros Hkeeps Hin Hset. destruct self as [fd].
  repeat (destruct Hin as [Heq | Hin]; [inversion Heq; subst set get; clear Heq |]);
    try contradiction;
    apply Socket_set_sock_opt_ok in Hset as [Hret ->];
    apply Hkeeps in Hret; cbn [Socket.fd_] in Hret |- *;
    unfold Socket.reuseaddr, Socket.reuseport, Socket.broadcast, Socket.keepalive;
    rewrite (Socket_get_sock_opt_reports _ _ _ _ _ 0 Hret);
    destruct on; reflexivity.
Qed.

(** The same for the boolean options of [SocketIO], SO_PASSCRED among
    them. *)
Theorem SocketIO_boolean_option_round_trip
    (set : (K -> Z -> Z -> Z -> list Z -> Z -> sys_ret * K) ->
           K -> SocketIO.t -> bool -> Result unit * K)
    (get : (Z -> Z -> Z -> opt_reply) -> SocketIO.t -> Result bool)
    (k k' : K) (self : SocketIO.t) (on : bool) :
  keeps_options setsockopt getsockopt ->
  In (set, get) SocketIO_boolean_options ->
  set setsockopt k self on = (Ok tt, k') ->
  get (getsockopt k') self = Ok on.
Proof.
  intros Hkeeps Hin Hset. destruct self as [fd].
  repeat (destruct Hin as [Heq | Hin]; [inversion Heq; subst set get; clear Heq |]);
    try contradiction;
    apply SocketIO_set_sock_opt_ok in Hset as [Hret ->];
    apply Hkeeps in Hret; cbn [SocketIO.fd_] in Hret |- *;
    unfold SocketIO.reuseaddr, SocketIO.reuseport, SocketIO.broadcast,
      SocketIO.keepalive, SocketIO.passcred;
    rewrite (SocketIO_get_sock_opt_reports _ _ _ _ _ 0 Hret);
    destruct on; reflexivity.
Qed.

(** On a kernel that keeps SO_LINGER, a duration set with success reads
    back with its count of seconds reduced to an [int]: unchanged when
    the count is an [int], and no duration reads back as no duration. *)
Theorem Socket_linger_round_trip
    (k k' : K) (self : Socket.t) (duration : option Z) :
  keeps_linger setsockopt getsockopt_linger ->
  Socket.set_linger setsockopt k self duration = (Ok tt, k') ->
  Socket.linger (getsockopt_linger k') self = Ok (option_map int_wrap duration) /\
  (fits_int duration -> Socket.linger (getsockopt_linger k') self = Ok duration).
Proof.
  intros Hkeeps Hset. unfold Socket.set_linger in Hset.
  apply Socket_set_sock_opt_ok in Hset as [Hret ->].
  apply Hkeeps in Hret. cbn zeta in Hret. destruct Hret as (Hok & Honoff & Hlin).
  assert (Hres : Socket.linger
                   (getsockopt_linger
                      (snd (setsockopt k (Socket.fd_ self) SOL_SOCKET SO_LINGER
                              [fst match duration with
                                   | Some d => (1, int_wrap d) | None => (0, 0) end;
                               snd match duration with
                                   | Some d => (1, int_wrap d) | None => (0, 0) end] 8)))
                   self
                 = Ok (option_map int_wrap duration)).
  { unfold Socket.linger.
    destruct (Z.eqb_spec (ret (linger_ret (getsockopt_linger
      (snd (setsockopt k (Socket.fd_ self) SOL_SOCKET SO_LINGER
              [fst match duration with
                   | Some d => (1, int_wrap d) | None => (0, 0) end;
               snd match duration with
                   | Some d => (1, int_wrap d) | None => (0, 0) end] 8))
      (Socket.fd_ self) SOL_SOCKET SO_LINGER))) (-1)); [contradiction |].
    rewrite Honoff, Hlin. destruct duration; reflexivity. }
  split; [exact Hres |].
  intros Hfits. rewrite Hres. destruct duration as [d |]; [| reflexivity].
  cbn in *. unfold int_wrap, INT_MIN, INT_MAX in *.
  rewrite Z.mod_small by lia. do 2 f_equal. lia.
Qed.

End OptionRoundTrips.

Section LingerIO.
Context {K : Type}.
Variable setsockopt : K -> Z -> Z -> Z -> list Z -> Z -> sys_ret * K.
Variable getsockopt_linger : K -> Z -> Z -> Z -> linger_reply.

(** [SocketIO::set_linger] and [SocketIO::linger] round-trip in the
    same way as those of [Socket]. *)
Theorem SocketIO_linger_round_trip
    (k k' : K) (self : SocketIO.t) (duration : option Z) :
  keeps_linger setsockopt getsockopt_linger ->
  SocketIO.set_linger setsockopt k self duration = (Ok tt, k') ->
  SocketIO.linger (getsockopt_linger k') self = Ok (option_map int_wrap duration) /\
  (fits_int duration -> SocketIO.linger (getsockopt_linger k') self = Ok duration).
Proof using Type.
  intros Hkeeps Hset. unfold SocketIO.set_linger in Hset.
  apply SocketIO_set_sock_opt_ok in Hset as [Hret ->].
  apply Hkeeps in Hret. cbn zeta in Hret. destruct Hret as (Hok & Honoff & Hlin).
  remember (snd (setsockopt k (SocketIO.fd_ self) SOL_SOCKET SO_LINGER
              [fst match duration with
                   | Some d => (1, int_wrap d) | None => (0, 0) end;
               snd match duration with
                   | Some d => (1, int_wrap d) | None => (0, 0) end] 8)) as k1.
  assert (Hres : SocketIO.linger (getsockopt_linger k1) self
                 = Ok (option_map int_wrap duration)).
  { unfold SocketIO.linger.
    destruct (Z.eqb_spec (ret (linger_ret (getsockopt_linger k1
      (SocketIO.fd_ self) SOL_SOCKET SO_LINGER))) (-1)); [contradiction |].
    rewrite Honoff, Hlin. destruct duration; reflexivity. }
  split; [exact Hres |].
  intros Hfits. rewrite Hres. destruct duration as [d |]; [| reflexivity].
  cbn in Hfits |- *. unfold int_wrap, INT_MIN, INT_MAX in *.
  rewrite Z.mod_small by lia. do 2 f_equal. lia.
Qed.

End LingerIO.

(** ** File status flags *)

Lemma land_lor_same (f m : Z) : Z.land (Z.lor f m) m = m.
Proof.
  apply Z.bits_inj'. intros i Hi.
  rewrite Z.land_spec, Z.lor_spec.
  destruct (Z.testbit f i), (Z.testbit m i); reflexivity.
Qed.

Lemma land_lnot_same (f m : Z) : Z.land (Z.land f (Z.lnot m)) m = 0.
Proof.
  apply Z.bits_inj'. intros i Hi.
  rewrite !Z.land_spec, Z.lnot_spec, Z.bits_0 by exact Hi.
  destruct (Z.testbit f i), (Z.testbit m i); reflexivity.
Qed.

(** The flags a setter hands to [F_SETFL], from the flags [F_GETFL]
    answered. *)
Lemma flag_setter_sets (K : Type)
    (fcntl_getfl : K -> Z -> sys_ret) (fcntl_setfl : K -> Z -> Z -> sys_ret * K)
    (set : (K -> Z -> sys_ret) -> (K -> Z -> Z -> sys_ret * K) ->
           K -> Socket.t -> bool -> Result unit * K)
    (k k' : K) (self : Socket.t) (on : bool) :
  In set Socket_flag_setters ->
  set fcntl_getfl fcntl_setfl k self on = (Ok tt, k') ->
  let old := ret (fcntl_getfl k (Socket.fd_ self)) in
  let new := if on then Z.lor old O_NONBLOCK else Z.land old (Z.lnot O_NONBLOCK) in
  ret (fst (fcntl_setfl k (Socket.fd_ self) new)) <> -1 /\
  k' = snd (fcntl_setfl k (Socket.fd_ self) new).
Proof.
  intros Hin Hset. cbn zeta.
  repeat (destruct Hin as [<- | Hin]); try contradiction;
    unfold Socket.set_nodelay, Socket.set_nonblocking, O_NDELAY in Hset;
    destruct (fcntl_setfl k (Socket.fd_ self)
                (if on then Z.lor (ret (fcntl_getfl k (Socket.fd_ self))) O_NONBLOCK
                 else Z.land (ret (fcntl_getfl k (Socket.fd_ self)))
                        (Z.lnot O_NONBLOCK))) as [r k1];
    cbn; destruct (Z.eqb_spec (ret r) (-1)); try discriminate;
    injection Hset as <-; auto.
Qed.

Section Flags.
Context {K : Type}.
Variable fcntl_getfl : K -> Z -> sys_ret.
Variable fcntl_setfl : K -> Z -> Z -> sys_ret * K.

(** On a kernel that keeps the flags, and a descriptor whose flags
    [F_GETFL] can read: after [set_nodelay on] or [set_nonblocking on]
    succeeded, both [nodelay()] and [nonblocking()] return [on].  The
    two pairs work on one and the same flag. *)
Theorem Socket_flag_round_trip
    (set : (K -> Z -> sys_ret) -> (K -> Z -> Z -> sys_ret * K) ->
           K -> Socket.t -> bool -> Result unit * K)
    (get : (K -> Z -> sys_ret) -> K -> Socket.t -> Result bool)
    (k k' : K) (self : Socket.t) (on : bool) :
  keeps_flags fcntl_getfl fcntl_setfl ->
  In set Socket_flag_setters ->
  In get Socket_flag_getters ->
  0 <= ret (fcntl_getfl k (Socket.fd_ self)) ->
  set fcntl_getfl fcntl_setfl k self on = (Ok tt, k') ->
  get fcntl_getfl k' self = Ok on.
Proof using Type.
  intros Hkeeps Hset_in Hget_in Hold Hset.
  destruct (flag_setter_sets K fcntl_getfl fcntl_setfl set k k' self on
              Hset_in Hset) as [Hret ->].
  assert (Hnew : 0 <= (if on
                       then Z.lor (ret (fcntl_getfl k (Socket.fd_ self))) O_NONBLOCK
                       else Z.land (ret (fcntl_getfl k (Socket.fd_ self)))
                              (Z.lnot O_NONBLOCK))).
  { destruct on; [apply Z.lor_nonneg; unfold O_NONBLOCK; lia
                 | apply Z.land_nonneg; left; exact Hold]. }
  pose proof (Hkeeps k (Socket.fd_ self) _ Hnew Hret) as Hget.
  repeat (destruct Hget_in as [<- | Hget_in]); try contradiction;
    unfold Socket.nodelay, Socket.nonblocking, O_NDELAY; rewrite Hget;
    (destruct (Z.eqb_spec
       (if on then Z.lor (ret (fcntl_getfl k (Socket.fd_ self))) O_NONBLOCK
        else Z.land (ret (fcntl_getfl k (Socket.fd_ self))) (Z.lnot O_NONBLOCK))
       (-1)); [lia |]);
    destruct on; rewrite ?land_lor_same, ?land_lnot_same; reflexivity.
Qed.

(** [set_nodelay(on)] and [set_nonblocking(on)] hand [F_SETFL] the
    flags that [F_GETFL] answered with bit 11 ([O_NONBLOCK]) set to
    [on] and every other bit as it was, and return what [F_SETFL]
    gives: its [errno] as error when it returns -1, unit otherwise. *)
Theorem Socket_flag_setter_frame
    (set : (K -> Z -> sys_ret) -> (K -> Z -> Z -> sys_ret * K) ->
           K -> Socket.t -> bool -> Result unit * K)
    (k : K) (self : Socket.t) (on : bool) :
  In set Socket_flag_setters ->
  exists new : Z,
    set fcntl_getfl fcntl_setfl k self on
    = (if ret (fst (fcntl_setfl k (Socket.fd_ self) new)) =? -1
       then Err (make_sys_error (errno (fst (fcntl_setfl k (Socket.fd_ self) new))))
       else Ok tt,
       snd (fcntl_setfl k (Socket.fd_ self) new)) /\
    Z.testbit new 11 = on /\
    forall i, 0 <= i -> i <> 11 ->
      Z.testbit new i = Z.testbit (ret (fcntl_getfl k (Socket.fd_ self))) i.
Proof using Type.
  intros Hset_in.
  exists (if on then Z.lor (ret (fcntl_getfl k (Socket.fd_ self))) O_NONBLOCK
          else Z.land (ret (fcntl_getfl k (Socket.fd_ self))) (Z.lnot O_NONBLOCK)).
  split; [| split].
  - repeat (destruct Hset_in as [<- | Hset_in]); try contradiction;
      unfold Socket.set_nodelay, Socket.set_nonblocking, O_NDELAY;
      destruct (fcntl_setfl k (Socket.fd_ self)
                  (if on then Z.lor (ret (fcntl_getfl k (Socket.fd_ self))) O_NONBLOCK
                   else Z.land (ret (fcntl_getfl k (Socket.fd_ self)))
                          (Z.lnot O_NONBLOCK))) as [r k1];
      cbn; destruct (ret r =? -1); reflexivity.
  - assert (Hbit : Z.testbit O_NONBLOCK 11 = true).
    { change O_NONBLOCK with (2 ^ 11). apply Z.pow2_bits_true. lia. }
    destruct on.
    + rewrite Z.lor_spec, Hbit. apply orb_true_r.
    + rewrite Z.land_spec, Z.lnot_spec, Hbit by lia. apply andb_false_r.
  - intros i Hi Hne.
    assert (Hbit : Z.testbit O_NONBLOCK i = false).
    { change O_NONBLOCK with (2 ^ 11). apply Z.pow2_bits_false. lia. }
    destruct on.
    + rewrite Z.lor_spec, Hbit. apply orb_false_r.
    + rewrite Z.land_spec, Z.lnot_spec, Hbit by exact Hi. apply andb_true_r.
Qed.

(** The setters do not test what [F_GETFL] answered.  When it failed,
    [nonblocking()] returns its error, but [set_nonblocking] goes on to
    [F_SETFL] with flags computed from -1 (all bits for [true], all but
    [O_NONBLOCK] for [false]) and returns what that call gives. *)
Theorem set_nonblocking_after_failed_getfl
    (k : K) (self : Socket.t) (status : bool) :
  ret (fcntl_getfl k (Socket.fd_ self)) = -1 ->
  Socket.nonblocking fcntl_getfl k self
  = Err (make_sys_error (errno (fcntl_getfl k (Socket.fd_ self)))) /\
  Socket.set_nonblocking fcntl_getfl fcntl_setfl k self status
  = (let r := fcntl_setfl k (Socket.fd_ self) (if status then -1 else -2049) in
     (if ret (fst r) =? -1 then Err (make_sys_error (errno (fst r))) else Ok tt,
      snd r)).
Proof using Type.
  intros Hfail. unfold Socket.nonblocking, Socket.set_nonblocking.
  rewrite Hfail. cbn zeta. split; [reflexivity |].
  destruct status;
    [ change (Z.lor (-1) O_NONBLOCK) with (-1)
    | change (Z.land (-1) (Z.lnot O_NONBLOCK)) with (-2049) ];
    match goal with |- context [fcntl_setfl ?a ?b ?c] =>
      destruct (fcntl_setfl a b c) as [r k1] end; cbn;
    destruct (ret r =? -1); reflexivity.
Qed.

End Flags.

(** ** Socket: where descriptors go *)

(** A valid descriptor that is held or was closed before a step is held
    or closed after it. *)
Lemma step_keeps_track (w w' : Socket.world) (a : Socket.action) (f : Z) :
  0 <= f ->
  Socket.step w a = Some w' ->
  held (Socket.objs w) f \/ f ∈ Socket.closed w ->
  held (Socket.objs w') f \/ f ∈ Socket.closed w'.
Proof.
  intros Hf Hstep [(i & s & Hi & Hfd) | Hclosed].
  - destruct a as [o | new other | self other | o]; cbn in Hstep.
    + unfold Socket.close in Hstep.
      destruct (Socket.objs w !! o) as [so |] eqn:Ho; [| discriminate].
      injection Hstep as <-. cbn.
      destruct (decide (i = o)) as [-> | Hne].
      * right. rewrite Ho in Hi. injection Hi as ->.
        apply elem_of_app. right. apply list_elem_of_singleton. auto.
      * left. exists i, s. split; [| exact Hfd].
        rewrite lookup_insert_ne by congruence. exact Hi.
    + unfold Socket.move_ctor in Hstep.
      destruct (Socket.objs w !! new) as [? |] eqn:Hnew; [discriminate |].
      destruct (Socket.objs w !! other) as [src |] eqn:Hother; [| discriminate].
      injection Hstep as <-. cbn. left.
      destruct (decide (i = other)) as [-> | Hne].
      * rewrite Hother in Hi. injection Hi as ->.
        exists new, (Socket.mk (Socket.fd_ s)). split; [| exact Hfd].
        rewrite lookup_insert_ne by congruence. apply lookup_insert_eq.
      * exists i, s. split; [| exact Hfd].
        rewrite !lookup_insert_ne by congruence. exact Hi.
    + unfold Socket.move_assign in Hstep.
      destruct (Socket.objs w !! self) as [dst |] eqn:Hself; [| discriminate].
      destruct (Socket.objs w !! other) as [src |] eqn:Hother; [| discriminate].
      injection Hstep as <-. cbn.
      destruct (decide (i = self)) as [-> | Hns].
      * right. rewrite Hself in Hi. injection Hi as ->.
        unfold Socket.close_if_open. rewrite Hfd.
        destruct (Z.leb_spec 0 f); [| lia].
        apply elem_of_app. right. apply list_elem_of_singleton. reflexivity.
      * left. destruct (decide (i = other)) as [-> | Hno].
        -- rewrite Hother in Hi. injection Hi as ->.
           exists self, (Socket.mk (Socket.fd_ s)). split; [| exact Hfd].
           rewrite lookup_insert_ne by congruence. apply lookup_insert_eq.
        -- exists i, s. split; [| exact Hfd].
           rewrite !lookup_insert_ne by congruence. exact Hi.
    + unfold Socket.dtor in Hstep.
      destruct (Socket.objs w !! o) as [so |] eqn:Ho; [| discriminate].
      injection Hstep as <-. cbn.
      destruct (decide (i = o)) as [-> | Hne].
      * right. rewrite Ho in Hi. injection Hi as ->.
        unfold Socket.close_if_open. rewrite Hfd.
        destruct (Z.leb_spec 0 f); [| lia].
        apply elem_of_app. right. apply list_elem_of_singleton. reflexivity.
      * left. exists i, s. split; [| exact Hfd].
        rewrite lookup_delete_ne by congruence. exact Hi.
  - right.
    destruct a as [o | new other | self other | o]; cbn in Hstep.
    + unfold Socket.close in Hstep.
      destruct (Socket.objs w !! o); [| discriminate].
      injection Hstep as <-. cbn. apply elem_of_app. auto.
    + unfold Socket.move_ctor in Hstep.
      destruct (Socket.objs w !! new); [discriminate |].
      destruct (Socket.objs w !! other); [| discriminate].
      injection Hstep as <-. exact Hclosed.
    + unfold Socket.move_assign in Hstep.
      destruct (Socket.objs w !! self) as [dst |]; [| discriminate].
      destruct (Socket.objs w !! other); [| discriminate].
      injection Hstep as <-. cbn. unfold Socket.close_if_open.
      destruct (0 <=? Socket.fd_ dst); [apply elem_of_app |]; auto.
    + unfold Socket.dtor in Hstep.
      destruct (Socket.objs w !! o) as [so |]; [| discriminate].
      injection Hstep as <-. cbn. unfold Socket.close_if_open.
      destruct (0 <=? Socket.fd_ so); [apply elem_of_app |]; auto.
Qed.

(** A valid descriptor that is held or closed after a step was held or
    closed before it. *)
Lemma step_invents_nothing (w w' : Socket.world) (a : Socket.action) (f : Z) :
  0 <= f ->
  Socket.step w a = Some w' ->
  held (Socket.objs w') f \/ f ∈ Socket.closed w' ->
  held (Socket.objs w) f \/ f ∈ Socket.closed w.
Proof.
  intros Hf Hstep.
  destruct a as [o | new other | self other | o]; cbn in Hstep.
  - unfold Socket.close in Hstep.
    destruct (Socket.objs w !! o) as [so |] eqn:Ho; [| discriminate].
    injection Hstep as <-. cbn. intros [(i & s & Hi & Hfd) | Hin].
    + apply lookup_insert_Some in Hi as [[-> <-] | [Hne Hi]]; [cbn in Hfd; lia |].
      left. exists i, s. auto.
    + apply elem_of_app in Hin as [Hin | Hin]; [auto |].
      apply list_elem_of_singleton in Hin. left. exists o, so. auto.
  - unfold Socket.move_ctor in Hstep.
    destruct (Socket.objs w !! new) as [? |] eqn:Hnew; [discriminate |].
    destruct (Socket.objs w !! other) as [src |] eqn:Hother; [| discriminate].
    injection Hstep as <-. cbn. intros [(i & s & Hi & Hfd) | Hin]; [| auto].
    left. apply lookup_moved in Hi as [_ [[-> Hi] | [_ Hi]]]; [| | lia].
    + exists other, src. split; [exact Hother | congruence].
    + exists i, s. auto.
  - unfold Socket.move_assign in Hstep.
    destruct (Socket.objs w !! self) as [dst |] eqn:Hself; [| discriminate].
    destruct (Socket.objs w !! other) as [src |] eqn:Hother; [| discriminate].
    injection Hstep as <-. cbn. intros [(i & s & Hi & Hfd) | Hin].
    + left. apply lookup_moved in Hi as [_ [[-> Hi] | [_ Hi]]]; [| | lia].
      * exists other, src. split; [exact Hother | congruence].
      * exists i, s. auto.
    + apply elem_of_close_if_open in Hin as [Hin | Hin]; [auto |].
      left. exists self, dst. auto.
  - unfold Socket.dtor in Hstep.
    destruct (Socket.objs w !! o) as [so |] eqn:Ho; [| discriminate].
    injection Hstep as <-. cbn. intros [(i & s & Hi & Hfd) | Hin].
    + apply lookup_delete_Some in Hi as [_ Hi]. left. exists i, s. auto.
    + apply elem_of_close_if_open in Hin as [Hin | Hin]; [auto |].
      left. exists o, so. auto.
Qed.

Lemma run_keeps_track (prog : list Socket.action) (w w' : Socket.world) (f : Z) :
  0 <= f ->
  Socket.run w prog = Some w' ->
  held (Socket.objs w) f \/ f ∈ Socket.closed w ->
  held (Socket.objs w') f \/ f ∈ Socket.closed w'.
Proof.
  intros Hf. revert w. induction prog as [| a prog IH]; intros w; cbn.
  - intros [= <-] Hw. exact Hw.
  - destruct (Socket.step w a) as [w1 |] eqn:Hstep; [| discriminate].
    intros Hrun Hw. apply (IH w1 Hrun).
    exact (step_keeps_track w w1 a f Hf Hstep Hw).
Qed.

Lemma run_invents_nothing (prog : list Socket.action) (w w' : Socket.world) (f : Z) :
  0 <= f ->
  Socket.run w prog = Some w' ->
  held (Socket.objs w') f \/ f ∈ Socket.closed w' ->
  held (Socket.objs w) f \/ f ∈ Socket.closed w.
Proof.
  intros Hf. revert w. induction prog as [| a prog IH]; intros w; cbn.
  - intros [= <-] Hw. exact Hw.
  - destruct (Socket.step w a) as [w1 |] eqn:Hstep; [| discriminate].
    intros Hrun Hw'.
    exact (step_invents_nothing w w1 a f Hf Hstep (IH w1 Hrun Hw')).
Qed.

(** No descriptor is leaked.  A valid descriptor that a [Socket] held
    at the start is, after any sequence of close, move construction,
    move assignment and destruction, still held by a live object or
    has been closed; once every object is destroyed it has been
    closed. *)
Theorem socket_fd_not_leaked
    (objs : gmap nat Socket.t) (prog : list Socket.action)
    (w' : Socket.world) (f : Z) :
  0 <= f ->
  held objs f ->
  Socket.run (Socket.mk_world objs []) prog = Some w' ->
  (held (Socket.objs w') f \/ f ∈ Socket.closed w') /\
  (Socket.objs w' = ∅ -> f ∈ Socket.closed w').
Proof.
  intros Hf Hheld Hrun.
  assert (Hend : held (Socket.objs w') f \/ f ∈ Socket.closed w')
    by exact (run_keeps_track prog _ w' f Hf Hrun (or_introl Hheld)).
  split; [exact Hend |]. intros Hempty.
  destruct Hend as [(i & s & Hi & _) | Hin]; [| exact Hin].
  rewrite Hempty, lookup_empty in Hi. discriminate.
Qed.

(** Nothing but its own is closed.  Every valid descriptor handed to a
    close during such a sequence, and every valid descriptor a live
    object holds after it, was held by a [Socket] at the start. *)
Theorem socket_closes_only_held_fds
    (objs : gmap nat Socket.t) (prog : list Socket.action)
    (w' : Socket.world) (f : Z) :
  0 <= f ->
  Socket.run (Socket.mk_world objs []) prog = Some w' ->
  held (Socket.objs w') f \/ f ∈ Socket.closed w' ->
  held objs f.
Proof.
  intros Hf Hrun Hend.
  destruct (run_invents_nothing prog _ w' f Hf Hrun Hend) as [Hheld | Hin].
  - exact Hheld.
  - cbn in Hin. apply not_elem_of_nil in Hin. contradiction.
Qed.

(** ** SocketIO: composing the calls *)

Section Compose.
Context {Stream : Type} (Stream_from : SocketIO.t -> Stream).
Context {Listener : Type} (Listener_from : SocketIO.t -> Listener).
Context {Addr : Type} `{is_socket_address Addr}.

Lemma build_listener_cases
    (socket : Z -> Z -> Z -> sys_ret) (bind_sys : Z -> sockaddr -> sys_ret)
    (listen_sys : Z -> Z -> sys_ret) (addr : Addr) :
  let s := socket (Addr_family addr) (Z.lor SOCK_STREAM SOCK_NONBLOCK) 0 in
  let b := bind_sys (ret s) (Addr_sockaddr addr) in
  let l := listen_sys (ret s) SOMAXCONN in
  SocketIO.build_listener Listener_from socket bind_sys listen_sys addr
  = if ret s =? -1 then Err (make_sys_error (errno s))
    else if ret b =? -1 then Err (make_sys_error (errno b))
    else if ret l =? -1 then Err (make_sys_error (errno l))
    else Ok (Listener_from (SocketIO.mk (ret s))).
Proof.
  cbn zeta. unfold SocketIO.build_listener, SocketIO.build_socket,
    SocketIO.bind, SocketIO.listen.
  destruct (ret (socket (Addr_family addr) (Z.lor SOCK_STREAM SOCK_NONBLOCK) 0) =? -1);
    cbn; [reflexivity |].
  destruct (ret (bind_sys _ (Addr_sockaddr addr)) =? -1); [reflexivity |].
  destruct (ret (listen_sys _ SOMAXCONN) =? -1); reflexivity.
Qed.

(** [build_listener] returns a Listener only over a descriptor that
    [::socket] gave for a non-blocking stream socket, that [::bind]
    bound to the address and that [::listen] accepted with a backlog
    of SOMAXCONN. *)
Theorem build_listener_success
    (socket : Z -> Z -> Z -> sys_ret) (bind_sys : Z -> sockaddr -> sys_ret)
    (listen_sys : Z -> Z -> sys_ret) (addr : Addr) (L : Listener) :
  SocketIO.build_listener Listener_from socket bind_sys listen_sys addr = Ok L ->
  let s := socket (Addr_family addr) (Z.lor SOCK_STREAM SOCK_NONBLOCK) 0 in
  ret s <> -1 /\
  ret (bind_sys (ret s) (Addr_sockaddr addr)) <> -1 /\
  ret (listen_sys (ret s) SOMAXCONN) <> -1 /\
  L = Listener_from (SocketIO.mk (ret s)).
Proof.
  rewrite build_listener_cases. cbn zeta.
  destruct (Z.eqb_spec (ret (socket (Addr_family addr)
                               (Z.lor SOCK_STREAM SOCK_NONBLOCK) 0)) (-1));
    [discriminate |].
  destruct (Z.eqb_spec (ret (bind_sys
      (ret (socket (Addr_family addr) (Z.lor SOCK_STREAM SOCK_NONBLOCK) 0))
      (Addr_sockaddr addr))) (-1)); [discriminate |].
  destruct (Z.eqb_spec (ret (listen_sys
      (ret (socket (Addr_family addr) (Z.lor SOCK_STREAM SOCK_NONBLOCK) 0))
      SOMAXCONN)) (-1)); [discriminate |].
  intros [= <-]. auto.
Qed.

(** [build_listener] reports the error of the first call that failed:
    of [::socket]; else of [::bind] on the new descriptor; else of
    [::listen] on it. *)
Theorem build_listener_first_failure
    (socket : Z -> Z -> Z -> sys_ret) (bind_sys : Z -> sockaddr -> sys_ret)
    (listen_sys : Z -> Z -> sys_ret) (addr : Addr) :
  let s := socket (Addr_family addr) (Z.lor SOCK_STREAM SOCK_NONBLOCK) 0 in
  let b := bind_sys (ret s) (Addr_sockaddr addr) in
  let l := listen_sys (ret s) SOMAXCONN in
  let result :=
    SocketIO.build_listener Listener_from socket bind_sys listen_sys addr in
  (ret s = -1 -> result = Err (make_sys_error (errno s))) /\
  (ret s <> -1 -> ret b = -1 -> result = Err (make_sys_error (errno b))) /\
  (ret s <> -1 -> ret b <> -1 -> ret l = -1 ->
     result = Err (make_sys_error (errno l))).
Proof.
  cbn zeta. rewrite build_listener_cases. cbn zeta.
  destruct (Z.eqb_spec (ret (socket (Addr_family addr)
                               (Z.lor SOCK_STREAM SOCK_NONBLOCK) 0)) (-1)).
  - repeat split; intros; first [reflexivity | contradiction].
  - destruct (Z.eqb_spec (ret (bind_sys
      (ret (socket (Addr_family addr) (Z.lor SOCK_STREAM SOCK_NONBLOCK) 0))
      (Addr_sockaddr addr))) (-1)).
    + repeat split; intros; first [reflexivity | contradiction].
    + destruct (Z.eqb_spec (ret (listen_sys
        (ret (socket (Addr_family addr) (Z.lor SOCK_STREAM SOCK_NONBLOCK) 0))
        SOMAXCONN)) (-1)); repeat split; intros;
        first [reflexivity | contradiction].
Qed.

(** [build_stream] when [::socket] succeeds and the operation is
    suspended as prepared: the connect is prepared over the new
    descriptor and the bytes of the address, with [sizeof(Addr)] as
    length, and the awaiting site receives the Stream over the new
    descriptor when the completion is nonnegative, and otherwise the
    negated completion as error. *)
Theorem Connect_after_socket_success
    (cb0 : Callback) (addr : Addr) (socket : Z -> Z -> Z -> sys_ret)
    (Super_await_suspend : SocketIO.Connect.t Addr -> SocketIO.Connect.t Addr * bool)
    (res : Z) :
  let s := socket (Addr_family addr) (Z.lor SOCK_STREAM SOCK_NONBLOCK) 0 in
  ret s <> -1 ->
  (forall c, Super_await_suspend c = (c, true)) ->
  INT_MIN < res <= INT_MAX ->
  let c := fst (SocketIO.Connect.await_suspend socket Super_await_suspend
                  (SocketIO.build_stream cb0 addr)) in
  SocketIO.Connect.arg_fd c = ret s /\
  SocketIO.Connect.arg_addr c = Some (Addr_sockaddr addr) /\
  SocketIO.Connect.arg_addrlen c = Addr_sizeof /\
  SocketIO.Connect.co_await Stream_from socket Super_await_suspend res
    (SocketIO.build_stream cb0 addr)
  = if 0 <=? res then Ok (Stream_from (SocketIO.mk (ret s)))
    else Err (make_sys_error (- res)).
Proof.
  cbn zeta. intros Hs Hsuper Hres.
  unfold SocketIO.Connect.co_await, SocketIO.Connect.await_suspend,
    SocketIO.build_stream, SocketIO.build_socket. cbn.
  destruct (Z.eqb_spec (ret (socket (Addr_family addr)
                               (Z.lor SOCK_STREAM SOCK_NONBLOCK) 0)) (-1));
    [contradiction |].
  cbn. rewrite Hsuper. cbn. repeat split.
  unfold SocketIO.Connect.await_resume. cbn.
  destruct (Z.leb_spec 0 res); [reflexivity |].
  rewrite int_neg_exact by lia. reflexivity.
Qed.

End Compose.

(** ** write_all: what it asks of the kernel *)

Lemma cumulative_ext (w1 w2 : nat -> Z -> Z -> Result Z) (size : Z) :
  (forall n, nth_write w1 size n = nth_write w2 size n) ->
  forall n, cumulative w1 size n = cumulative w2 size n.
Proof.
  intros Hext n. induction n as [| n IH]; [reflexivity |]. cbn.
  fold (nth_write w1 size n). fold (nth_write w2 size n).
  rewrite Hext, IH. reflexivity.
Qed.

Lemma write_all_loop_ext (w1 w2 : nat -> Z -> Z -> Result Z) (size : Z)
    (fuel n : nat) (hw rem : Z) :
  makes_progress w1 -> size_range size ->
  (forall n, nth_write w1 size n = nth_write w2 size n) ->
  0 <= hw -> 0 <= rem -> hw + rem = size -> hw = cumulative w1 size n ->
  Socket.write_all_loop fuel w1 n hw rem = Socket.write_all_loop fuel w2 n hw rem.
Proof.
  intros Hprogress Hsize Hext. revert n hw rem.
  induction fuel as [| fuel IH]; intros n hw rem Hhw Hrem Hsum Hcum;
    [reflexivity |].
  cbn. destruct (Z.ltb_spec 0 rem) as [Hpos | _]; [| reflexivity].
  assert (H1 : w1 n hw rem = nth_write w1 size n).
  { unfold nth_write. rewrite <- Hcum. f_equal. lia. }
  assert (H2 : w2 n hw rem = nth_write w2 size n).
  { unfold nth_write. rewrite <- (cumulative_ext w1 w2 size Hext n), <- Hcum.
    f_equal. lia. }
  rewrite H2, <- Hext, <- H1.
  destruct (w1 n hw rem) as [v | e] eqn:Hw; [| reflexivity].
  destruct (Hprogress n hw rem v Hpos Hw) as [Hv1 Hv2].
  unfold size_range in Hsize.
  rewrite !size_wrap_small by (unfold size_range; lia).
  apply IH; try lia.
  cbn. fold (nth_write w1 size n). rewrite <- H1, <- Hcum. reflexivity.
Qed.

(** [write_all] never asks for bytes it has written already, nor for
    fewer than are left: when every successful write makes progress,
    what it returns rests only on the kernel's answers to the requests
    "[n]-th write, at the offset of the bytes written so far, for all
    the bytes that are left".  Two kernels that answer those requests
    alike give the same run. *)
Theorem write_all_asks_for_the_rest
    (w1 w2 : nat -> Z -> Z -> Result Z) (buf : list Byte.byte) (fuel : nat) :
  makes_progress w1 ->
  size_range (Socket.size_bytes buf) ->
  (forall n, nth_write w1 (Socket.size_bytes buf) n
             = nth_write w2 (Socket.size_bytes buf) n) ->
  Socket.write_all fuel w1 buf = Socket.write_all fuel w2 buf.
Proof.
  intros Hprogress Hsize Hext. unfold Socket.write_all.
  apply (write_all_loop_ext w1 w2 (Socket.size_bytes buf)); auto;
    unfold size_range in Hsize; try lia.
Qed.

(** ** The properties above on concrete runs *)

Lemma table_keeps_options : keeps_options table_setsockopt table_getsockopt.
Proof.
  intros k fd level optname v optlen _. unfold reports, table_getsockopt.
  cbn. rewrite lookup_insert_eq. cbn. split; [lia | reflexivity].
Qed.

Lemma table_keeps_linger : keeps_linger table_setsockopt table_getsockopt_linger.
Proof.
  intros k fd onoff lin optlen _. unfold table_getsockopt_linger.
  cbn. rewrite lookup_insert_eq. cbn. repeat split. lia.
Qed.

Lemma table_keeps_flags : keeps_flags table_getfl table_setfl.
Proof.
  intros k fd flags _ _. unfold table_getfl. cbn.
  rewrite lookup_insert_eq. reflexivity.
Qed.

(** SO_KEEPALIVE switched on for descriptor 3 reads back as on. *)
Lemma Socket_boolean_option_round_trip_witness :
  let k0 := mk_table_kernel ∅ ∅ in
  let self := Socket.mk 3 in
  Socket.keepalive
    (table_getsockopt (snd (Socket.set_keepalive table_setsockopt k0 self true)))
    self
  = Ok true.
Proof.
  cbn zeta.
  apply (Socket_boolean_option_round_trip table_setsockopt table_getsockopt
           Socket.set_keepalive Socket.keepalive (mk_table_kernel ∅ ∅)
           _ (Socket.mk 3) true table_keeps_options).
  - unfold Socket_boolean_options. cbn. tauto.
  - reflexivity.
Defined.

(** SO_PASSCRED switched off for descriptor 3 reads back as off. *)
Lemma SocketIO_boolean_option_round_trip_witness :
  let k0 := mk_table_kernel ∅ ∅ in
  let self := SocketIO.mk 3 in
  SocketIO.passcred
    (table_getsockopt (snd (SocketIO.set_passcred table_setsockopt k0 self false)))
    self
  = Ok false.
Proof.
  cbn zeta.
  apply (SocketIO_boolean_option_round_trip table_setsockopt table_getsockopt
           SocketIO.set_passcred SocketIO.passcred (mk_table_kernel ∅ ∅)
           _ (SocketIO.mk 3) false table_keeps_options).
  - unfold SocketIO_boolean_options. cbn. tauto.
  - reflexivity.
Defined.

(** A linger of 30 seconds reads back as 30 seconds; one of 2^32
    seconds reads back as 0 seconds. *)
Lemma Socket_linger_round_trip_witness :
  let k0 := mk_table_kernel ∅ ∅ in
  let self := Socket.mk 3 in
  Socket.linger
    (table_getsockopt_linger (snd (Socket.set_linger table_setsockopt k0 self (Some 30))))
    self
  = Ok (Some 30) /\
  Socket.linger
    (table_getsockopt_linger
       (snd (Socket.set_linger table_setsockopt k0 self (Some (2 ^ 32)))))
    self
  = Ok (Some 0).
Proof.
  cbn zeta. split.
  - apply (Socket_linger_round_trip table_setsockopt table_getsockopt_linger
             (mk_table_kernel ∅ ∅) _ (Socket.mk 3) (Some 30)
             table_keeps_linger eq_refl).
    cbn. unfold INT_MIN, INT_MAX. lia.
  - apply (Socket_linger_round_trip table_setsockopt table_getsockopt_linger
             (mk_table_kernel ∅ ∅) _ (Socket.mk 3) (Some (2 ^ 32))
             table_keeps_linger eq_refl).
Defined.

(** A linger of 30 seconds reads back as 30 seconds; one of 2^32 + 5
    seconds reads back as 5 seconds. *)
Lemma SocketIO_linger_round_trip_witness :
  let k0 := mk_table_kernel ∅ ∅ in
  let self := SocketIO.mk 3 in
  SocketIO.linger
    (table_getsockopt_linger
       (snd (SocketIO.set_linger table_setsockopt k0 self (Some 30))))
    self
  = Ok (Some 30) /\
  SocketIO.linger
    (table_getsockopt_linger
       (snd (SocketIO.set_linger table_setsockopt k0 self (Some (2 ^ 32 + 5)))))
    self
  = Ok (Some 5).
Proof.
  cbn zeta. split.
  - apply (SocketIO_linger_round_trip table_setsockopt table_getsockopt_linger
             (mk_table_kernel ∅ ∅) _ (SocketIO.mk 3) (Some 30)
             table_keeps_linger eq_refl).
    cbn. unfold INT_MIN, INT_MAX. lia.
  - apply (SocketIO_linger_round_trip table_setsockopt table_getsockopt_linger
             (mk_table_kernel ∅ ∅) _ (SocketIO.mk 3) (Some (2 ^ 32 + 5))
             table_keeps_linger eq_refl).
Defined.

(** Descriptor 3 has the flags O_RDWR (2): after [set_nodelay(true)],
    [nonblocking()] returns true. *)
Lemma Socket_flag_round_trip_witness :
  let k0 := mk_table_kernel ∅ {[ 3 := 2 ]} in
  let self := Socket.mk 3 in
  Socket.nonblocking table_getfl
    (snd (Socket.set_nodelay table_getfl table_setfl k0 self true)) self
  = Ok true.
Proof.
  cbn zeta.
  apply (Socket_flag_round_trip table_getfl table_setfl
           Socket.set_nodelay Socket.nonblocking
           (mk_table_kernel ∅ {[ 3 := 2 ]}) _ (Socket.mk 3) true
           table_keeps_flags).
  - unfold Socket_flag_setters. cbn. tauto.
  - unfold Socket_flag_getters. cbn. tauto.
  - vm_compute. discriminate.
  - reflexivity.
Defined.

(** Descriptor 3 has the flags O_RDWR (2): [set_nonblocking(true)]
    hands [F_SETFL] flags with bit 11 set and bit 1 as it was. *)
Lemma Socket_flag_setter_frame_witness :
  let k0 := mk_table_kernel ∅ {[ 3 := 2 ]} in
  let self := Socket.mk 3 in
  exists new : Z,
    Socket.set_nonblocking table_getfl table_setfl k0 self true
    = (if ret (fst (table_setfl k0 3 new)) =? -1
       then Err (make_sys_error (errno (fst (table_setfl k0 3 new))))
       else Ok tt,
       snd (table_setfl k0 3 new)) /\
    Z.testbit new 11 = true /\
    forall i, 0 <= i -> i <> 11 ->
      Z.testbit new i = Z.testbit (ret (table_getfl k0 3)) i.
Proof.
  cbn zeta.
  apply (Socket_flag_setter_frame table_getfl table_setfl
           Socket.set_nonblocking
           (mk_table_kernel ∅ {[ 3 := 2 ]}) (Socket.mk 3) true).
  unfold Socket_flag_setters. cbn. tauto.
Defined.

(** Descriptor 3 is not open: [F_GETFL] fails with EBADF (9),
    [nonblocking()] says so, and [set_nonblocking(false)] hands
    [F_SETFL] the flags -2049. *)
Lemma set_nonblocking_after_failed_getfl_witness :
  let k0 := mk_table_kernel ∅ ∅ in
  let self := Socket.mk 3 in
  Socket.nonblocking table_getfl k0 self = Err (make_sys_error 9) /\
  Socket.set_nonblocking table_getfl table_setfl k0 self false
  = (Ok tt, mk_table_kernel ∅ {[ 3 := -2049 ]}).
Proof.
  cbn zeta.
  destruct (set_nonblocking_after_failed_getfl table_getfl table_setfl
              (mk_table_kernel ∅ ∅) (Socket.mk 3) false) as [Hget Hset].
  - vm_compute. reflexivity.
  - split; [exact Hget |]. rewrite Hset. reflexivity.
Defined.

(** Two sockets over 5 and 7, moved about, closed and destroyed: the
    descriptor 5 has not been lost; it has been closed. *)
Lemma socket_fd_not_leaked_witness :
  let objs := <[0%nat := Socket.mk 5]> (<[1%nat := Socket.mk 7]> ∅) in
  let prog := [Socket.MoveCtor 2 0; Socket.MoveAssign 1 2; Socket.Close 1;
               Socket.Destroy 0; Socket.Destroy 1; Socket.Destroy 2] in
  exists w',
    Socket.run (Socket.mk_world objs []) prog = Some w' /\
    Socket.objs w' = ∅ /\
    5 ∈ Socket.closed w'.
Proof.
  cbn zeta.
  destruct (Socket.run
              (Socket.mk_world (<[0%nat := Socket.mk 5]> (<[1%nat := Socket.mk 7]> ∅)) [])
              [Socket.MoveCtor 2 0; Socket.MoveAssign 1 2; Socket.Close 1;
               Socket.Destroy 0; Socket.Destroy 1; Socket.Destroy 2])
    as [w' |] eqn:Hrun.
  - exists w'. split; [reflexivity |].
    assert (Hempty : Socket.objs w' = ∅).
    { vm_compute in Hrun. injection Hrun as <-. reflexivity. }
    split; [exact Hempty |].
    refine (proj2 (socket_fd_not_leaked _ _ w' 5 _ _ Hrun) Hempty).
    + lia.
    + exists 0%nat, (Socket.mk 5). split; reflexivity.
  - vm_compute in Hrun. discriminate Hrun.
Defined.

(** In the same run the descriptor 7 was closed: a socket held it at
    the start. *)
Lemma socket_closes_only_held_fds_witness :
  let objs := <[0%nat := Socket.mk 5]> (<[1%nat := Socket.mk 7]> ∅) in
  let prog := [Socket.MoveCtor 2 0; Socket.MoveAssign 1 2; Socket.Close 1;
               Socket.Destroy 0; Socket.Destroy 1; Socket.Destroy 2] in
  exists w',
    Socket.run (Socket.mk_world objs []) prog = Some w' /\
    7 ∈ Socket.closed w' /\
    held objs 7.
Proof.
  cbn zeta.
  destruct (Socket.run
              (Socket.mk_world (<[0%nat := Socket.mk 5]> (<[1%nat := Socket.mk 7]> ∅)) [])
              [Socket.MoveCtor 2 0; Socket.MoveAssign 1 2; Socket.Close 1;
               Socket.Destroy 0; Socket.Destroy 1; Socket.Destroy 2])
    as [w' |] eqn:Hrun.
  - exists w'. split; [reflexivity |].
    assert (Hin : 7 ∈ Socket.closed w').
    { vm_compute in Hrun. injection Hrun as <-. cbn. apply list_elem_of_here. }
    split; [exact Hin |].
    apply (socket_closes_only_held_fds _ _ w' 7 ltac:(lia) Hrun (or_intror Hin)).
  - vm_compute in Hrun. discriminate Hrun.
Defined.

(** [::socket] gives descriptor 4, [::bind] and [::listen] succeed: the
    Listener is over descriptor 4. *)
Lemma build_listener_success_witness :
  let socket := fun _ _ _ : Z => mk_sys_ret 4 0 in
  let bind_sys := fun (_ : Z) (_ : sockaddr) => mk_sys_ret 0 0 in
  let listen_sys := fun _ _ : Z => mk_sys_ret 0 0 in
  SocketIO.build_listener mk_io_stream socket bind_sys listen_sys
    ([Byte.x02; Byte.x00] : sockaddr)
  = Ok (mk_io_stream (SocketIO.mk 4)).
Proof.
  cbn zeta.
  destruct (build_listener_success mk_io_stream
              (fun _ _ _ : Z => mk_sys_ret 4 0)
              (fun (_ : Z) (_ : sockaddr) => mk_sys_ret 0 0)
              (fun _ _ : Z => mk_sys_ret 0 0)
              ([Byte.x02; Byte.x00] : sockaddr)
              (mk_io_stream (SocketIO.mk 4)) eq_refl) as (_ & _ & _ & HL).
  reflexivity.
Defined.

(** [::socket] gives descriptor 4 and the connect completes with 0: the
    Stream is over descriptor 4. *)
Lemma Connect_after_socket_success_witness :
  SocketIO.Connect.co_await mk_io_stream (fun _ _ _ : Z => mk_sys_ret 4 0)
    (fun c => (c, true)) 0
    (SocketIO.build_stream (mk_Callback 0) ([Byte.x02; Byte.x00] : sockaddr))
  = Ok (mk_io_stream (SocketIO.mk 4)).
Proof.
  destruct (Connect_after_socket_success mk_io_stream (mk_Callback 0)
              ([Byte.x02; Byte.x00] : sockaddr)
              (fun _ _ _ : Z => mk_sys_ret 4 0) (fun c => (c, true)) 0)
    as (_ & _ & _ & Hres).
  - cbn. lia.
  - intros c. reflexivity.
  - unfold INT_MIN, INT_MAX. lia.
  - exact Hres.
Defined.

Lemma cumulative_S (w : nat -> Z -> Z -> Result Z) (size : Z) (n : nat) :
  cumulative w size (S n)
  = match nth_write w size n with
    | Ok v => cumulative w size n + v
    | Err _ => cumulative w size n
    end.
Proof. reflexivity. Qed.

Lemma write_by_three_agree (n : nat) :
  cumulative write_by_three 7 n = cumulative write_by_three_to_7 7 n /\
  nth_write write_by_three 7 n = nth_write write_by_three_to_7 7 n.
Proof.
  assert (Hnth : forall m c,
            write_by_three_to_7 m c (7 - c) = write_by_three m c (7 - c)).
  { intros m c. unfold write_by_three_to_7, write_by_three.
    replace (c + (7 - c) =? 7) with true by (symmetry; apply Z.eqb_eq; lia).
    reflexivity. }
  induction n as [| n [IHc IHn]].
  - split; [reflexivity |]. unfold nth_write. rewrite Hnth. reflexivity.
  - assert (Hc : cumulative write_by_three 7 (S n) = cumulative write_by_three_to_7 7 (S n)).
    { rewrite !cumulative_S, IHn, IHc. reflexivity. }
    split; [exact Hc |]. unfold nth_write. rewrite <- Hc, Hnth. reflexivity.
Qed.

(** On a buffer of 7 bytes [write_all] cannot tell the kernel that
    takes three bytes at a time from the one that also refuses every
    request not ending at byte 7. *)
Lemma write_all_asks_for_the_rest_witness :
  Socket.write_all 7 write_by_three (repeat Byte.x61 7)
  = Socket.write_all 7 write_by_three_to_7 (repeat Byte.x61 7).
Proof.
  apply (write_all_asks_for_the_rest write_by_three write_by_three_to_7
           (repeat Byte.x61 7) 7).
  - intros n off len v Hlen Hv. injection Hv as <-. lia.
  - unfold size_range, SIZE_MAX, Socket.size_bytes. simpl length. lia.
  - intros n. change (Socket.size_bytes (repeat Byte.x61 7)) with 7.
    exact (proj2 (write_by_three_agree n)).
Defined.
